(** * step-viewer: the message chain, the frame scheduler and the load worker

    A shallow embedding of the cross-thread coordination code of
    [src/main.cpp] and [src/StaircaseViewer.cpp]:

    - [chain], the variadic builder of linked [Staircase::Message] values,
      over an explicit store of nodes (the builder links nodes by mutation);
    - [StaircaseViewer.handleMessages] and [Main.handleMessages], the self
      re-arming scheduler tick of either translation unit;
    - [StaircaseViewer._loadStepFile] and [Main.loadStepFile], the two
      background workers, with the completion callback they hand to
      [readStepFile].

    Calls into collaborators (canvas, view controller, shader compiler,
    logging, the emscripten host) are recorded, in program order, in the
    [effects] trace of the [World].  Each function is modelled as one
    sequential run over the shared context; the interleaving of the worker
    thread with a running tick is not part of the model. *)

From stdpp Require Import base numbers list strings.

Set Default Proof Using "Type".
Set Warnings "-register-all".

(** ** Data model *)

(** Modelled from the spec: the [MessageType::Type] enumeration is declared
    in staircase.hpp, which is not part of the sources at hand.  The
    enumerators are the ones the two translation units name; [OtherType]
    stands for any further enumerator of the header. *)
Inductive MessageType : Type :=
  | ClearScreen
  | InitDemoScene
  | InitEmptyScene
  | InitStepFile
  | NextFrame
  | DrawLoadingScreen
  | SetStepFileContent
  | OtherType (tag : nat).

#[global] Instance MessageType_eq_dec : EqDecision MessageType.
Proof. solve_decision. Defined.

(** Modelled from the spec: [Staircase::Message] (staircase.hpp) is a tag, an
    optional type-erased payload and an optional successor.  The queue holds
    messages by value; a value is never mutated once it has been copied out
    of the builder's store, so the successor pointer is a sub-value. *)
Inductive Message : Type :=
  mkMessage { type : MessageType;
              data : option string;
              nextMessage : option Message }.

(** [Staircase::Message msg(type)]: no payload, no successor. *)
Definition Msg (t : MessageType) : Message := mkMessage t None None.

Fixpoint chainLength (m : Message) : nat :=
  match m with
  | mkMessage _ _ None => 1
  | mkMessage _ _ (Some n) => S (chainLength n)
  end.

(** The kinds of a message and of its successors, front to back. *)
Fixpoint kinds (m : Message) : list MessageType :=
  match m with
  | mkMessage t _ None => [t]
  | mkMessage t _ (Some n) => t :: kinds n
  end.

Definition DocHandle : Type := nat.
Definition ShaderProgram : Type := nat.
Definition SpinnerParams : Type := nat.

Inductive Color : Type := Platinum.

(** Calls that leave the coordination core, as the collaborators see them. *)
Inductive Effect : Type :=
  | ClearCanvas (c : Color)
  | InitScene
  | UpdateView
  | InitDemoSceneCall
  | InitStepFileCall (doc : option DocHandle)
  | CreateShaderProgram (vertexShaderSource fragmentShaderSource : string)
  | DrawLoadingScreenCall (prog : ShaderProgram) (params : SpinnerParams)
  | Cout (s : string)
  | Cerr (s : string)
  | PrintLabels (doc : DocHandle)
  | ReadStepFile (content : string)
  | SetStepText (text : string)
  | RunInMainRuntimeThread
  | SetTimeout (ms : Z).

Record StaircaseViewController : Type :=
  { shouldRender : bool }.

(** Modelled from the spec: [AppContext] (AppContext.hpp) owns the message
    queue, the current document handle, the spinner flag and the render
    state the scheduler reads. *)
Record AppContext : Type :=
  { messageQueue : list Message;
    showingSpinner : bool;
    currentlyViewingDoc : option DocHandle;
    viewController : StaircaseViewController;
    shaderProgram : ShaderProgram;
    spinnerParams : SpinnerParams }.

(** The shared context together with what is observable from outside:
    [effects] is the trace of calls to collaborators, [handled] the history
    of messages taken from the front of a local queue (a ghost field: the
    code keeps no such list), [glPrograms] the number of shader programs the
    GL side has created. *)
Record World : Type :=
  { context : AppContext;
    effects : list Effect;
    handled : list Message;
    glPrograms : nat }.

(** ** A state monad over the world *)

Definition M (A : Type) : Type := World → A * World.

#[global] Instance M_ret : MRet M := λ A x w, (x, w).
#[global] Instance M_bind : MBind M :=
  λ A B f c w, let '(x, w') := c w in f x w'.

Definition exec {A} (c : M A) (w : World) : World := snd (c w).
Definition eval {A} (c : M A) (w : World) : A := fst (c w).

Definition gets {A} (f : AppContext → A) : M A := λ w, (f (context w), w).

Definition modify (f : AppContext → AppContext) : M () :=
  λ w, ((), {| context := f (context w); effects := effects w;
               handled := handled w; glPrograms := glPrograms w |}).

Definition emit (e : Effect) : M () :=
  λ w, ((), {| context := context w; effects := effects w ++ [e];
               handled := handled w; glPrograms := glPrograms w |}).

Definition noteHandled (m : Message) : M () :=
  λ w, ((), {| context := context w; effects := effects w;
               handled := handled w ++ [m]; glPrograms := glPrograms w |}).

(** ** AppContext operations *)

Definition withQueue (q : list Message) (c : AppContext) : AppContext :=
  {| messageQueue := q;
     showingSpinner := showingSpinner c;
     currentlyViewingDoc := currentlyViewingDoc c;
     viewController := viewController c;
     shaderProgram := shaderProgram c;
     spinnerParams := spinnerParams c |}.

Definition withShowingSpinner (b : bool) (c : AppContext) : AppContext :=
  {| messageQueue := messageQueue c;
     showingSpinner := b;
     currentlyViewingDoc := currentlyViewingDoc c;
     viewController := viewController c;
     shaderProgram := shaderProgram c;
     spinnerParams := spinnerParams c |}.

Definition withCurrentlyViewingDoc (d : option DocHandle) (c : AppContext)
  : AppContext :=
  {| messageQueue := messageQueue c;
     showingSpinner := showingSpinner c;
     currentlyViewingDoc := d;
     viewController := viewController c;
     shaderProgram := shaderProgram c;
     spinnerParams := spinnerParams c |}.

Definition withShouldRender (b : bool) (c : AppContext) : AppContext :=
  {| messageQueue := messageQueue c;
     showingSpinner := showingSpinner c;
     currentlyViewingDoc := currentlyViewingDoc c;
     viewController := {| shouldRender := b |};
     shaderProgram := shaderProgram c;
     spinnerParams := spinnerParams c |}.

Definition withShaderProgram (p : ShaderProgram) (c : AppContext)
  : AppContext :=
  {| messageQueue := messageQueue c;
     showingSpinner := showingSpinner c;
     currentlyViewingDoc := currentlyViewingDoc c;
     viewController := viewController c;
     shaderProgram := p;
     spinnerParams := spinnerParams c |}.

(** Modelled from the spec: [AppContext::pushMessage] inserts at the tail
    of the queue and always succeeds. *)
Definition pushMessage (msg : Message) : M () :=
  modify (λ c, withQueue (messageQueue c ++ [msg]) c).

(** Modelled from the spec: [AppContext::drainMessageQueue] removes and
    returns the whole current contents, in order, leaving the queue empty. *)
Definition drainMessageQueue : M (list Message) :=
  q ← gets messageQueue;
  modify (withQueue []);;
  mret q.

(** Modelled from the spec: [createShaderProgram] (GraphicsUtilities) is the
    renderer's pipeline builder; it compiles the two sources and returns the
    handle of a new program.  Handles are numbered in creation order. *)
Definition createShaderProgram (vs fs : string) : M ShaderProgram :=
  λ w, let p := S (glPrograms w) in
       (p, {| context := context w;
              effects := effects w ++ [CreateShaderProgram vs fs];
              handled := handled w; glPrograms := p |}).


(** ** The chain builder (main.cpp, [chain]) *)

(** A [Staircase::Message] object living behind a [std::shared_ptr]: the
    address of a node is its index in the store. *)
Record Node : Type :=
  { ntype : MessageType;
    nnext : option nat }.

Definition setNext (a : nat) (n : Node) : Node :=
  {| ntype := ntype n; nnext := Some a |}.

(** The store and the two captured locals [head] and [current]. *)
Record Builder : Type :=
  { store : list Node;
    head : option nat;
    current : option nat }.

(** [std::make_shared<Staircase::Message>(type)]: a fresh node at the end
    of the store. *)
Definition make_shared (t : MessageType) (h : list Node) : nat * list Node :=
  (length h, h ++ [{| ntype := t; nnext := None |}]).

(** The lambda [createAndLink].  [current->nextMessage = newMsg] is only
    reached with [head] set, and then [current] is set as well. *)
Definition createAndLink (b : Builder) (t : MessageType) : Builder :=
  let '(newMsg, h) := make_shared t (store b) in
  match head b with
  | None =>
      {| store := h; head := Some newMsg; current := Some newMsg |}
  | Some hd =>
      {| store := match current b with
                  | Some cur => alter (setNext newMsg) cur h
                  | None => h
                  end;
         head := Some hd;
         current := Some newMsg |}
  end.

(** [(createAndLink(types), ...)]: the fold over the comma operator runs
    left to right; [chain] returns [head]. *)
Definition chainFrom (h : list Node) (types : list MessageType) : Builder :=
  foldl createAndLink {| store := h; head := None; current := None |} types.

Definition chain (types : list MessageType) : Builder := chainFrom [] types.

(** Following [nextMessage] from [a]: the addresses visited, or [None] when
    a dangling pointer is met or [fuel] hops do not reach the end. *)
Fixpoint walk (fuel : nat) (h : list Node) (a : nat) : option (list nat) :=
  match fuel with
  | 0 => None
  | S fuel' =>
      n ← h !! a;
      match nnext n with
      | None => Some [a]
      | Some b => rest ← walk fuel' h b; Some (a :: rest)
      end
  end.

(** [*p]: the message value read through a pointer, successors included. *)
Fixpoint deref (fuel : nat) (h : list Node) (a : nat) : option Message :=
  match fuel with
  | 0 => None
  | S fuel' =>
      n ← h !! a;
      match nnext n with
      | None => Some (mkMessage (ntype n) None None)
      | Some b =>
          m ← deref fuel' h b;
          Some (mkMessage (ntype n) None (Some m))
      end
  end.

(** [*chain(t1, ..., tn)] as the value [pushMessage] receives; [None] is
    the dereference of the null pointer that [chain()] returns. *)
Definition chainValue (types : list MessageType) : option Message :=
  let b := chain types in
  a ← head b; deref (length (store b)) (store b) a.

(** The same value, written directly. *)
Fixpoint chainMsg (t : MessageType) (ts : list MessageType) : Message :=
  match ts with
  | [] => Msg t
  | t' :: ts' => mkMessage t None (Some (chainMsg t' ts'))
  end.

(** [pushMessage] applied to [*chain(types...)], the form in which both
    translation units enqueue a chain: the head message is copied into the
    queue, its successors hanging off it. *)
Definition pushChain (types : list MessageType) : M () :=
  match chainValue types with
  | Some m => pushMessage m
  | None => mret ()
  end.

(** ** Straight-line code of the workers *)

(** One statement of a worker or of its completion callback: a write to a
    field of the shared context, a push, or a call that leaves the core.
    A worker is the list of its statements in program order, so that the
    world in which each statement runs can be observed. *)
Inductive Step : Type :=
  | SetShowingSpinner (b : bool)
  | SetCurrentlyViewingDoc (doc : DocHandle)
  | PushMessage (msg : Message)
  | PushChain (types : list MessageType)
  | Call (e : Effect).

Definition runStep (s : Step) : M () :=
  match s with
  | SetShowingSpinner b => modify (withShowingSpinner b)
  | SetCurrentlyViewingDoc doc => modify (withCurrentlyViewingDoc (Some doc))
  | PushMessage msg => pushMessage msg
  | PushChain types => pushChain types
  | Call e => emit e
  end.

Fixpoint runSteps (l : list Step) : M () :=
  match l with
  | [] => mret ()
  | s :: l' => runStep s;; runSteps l'
  end.

(** Every statement paired with the world in which it starts. *)
Fixpoint runsIn (l : list Step) (w : World) : list (Step * World) :=
  match l with
  | [] => []
  | s :: l' => (s, w) :: runsIn l' (exec (runStep s) w)
  end.

(** Modelled from the spec: [readStepFile] (OCCTUtilities) is the document
    loader; it parses [content] and invokes [onComplete] exactly once, with
    the handle the parse produced or with none.  [result] is what the
    parse of this content yields.  In the straight-line reading: the call,
    then the statements of the callback. *)
Definition readStepFile (content : string) (result : option DocHandle)
    (onComplete : option DocHandle → list Step) : list Step :=
  Call (ReadStepFile content) :: onComplete result.

(** ** Undefined behaviour *)

(** A computation that may leave defined behaviour: [None] stands for a
    run on which the C++ code has undefined behaviour (here: a null
    pointer dereference); nothing is said about such a run. *)
Definition MU (A : Type) : Type := World → option (A * World).

Definition defined {A} (c : M A) : MU A := λ w, Some (c w).

Definition undefined {A} : MU A := λ _, None.

Definition andThen {A B} (c : MU A) (k : A → MU B) : MU B :=
  λ w, match c w with
       | Some (x, w') => k x w'
       | None => None
       end.

(** What [UTF8ToString] reads from [s.c_str()]: the bytes of [s] before
    its first NUL. *)
Fixpoint c_str (s : string) : string :=
  match s with
  | EmptyString => EmptyString
  | String c s' =>
      if Ascii.eqb c Ascii.zero then EmptyString else String c (c_str s')
  end.

(** ** StaircaseViewer.cpp *)

Module StaircaseViewer.

Definition vertexShaderSource : string :=
  "attribute vec3 position;void main() {  gl_Position  = vec4(position, 1.0);}".

Definition fragmentShaderSource : string :=
  "precision mediump float;uniform vec4 color;void main() {  gl_FragColor = color;}".

(** [int const FPS60 = 1000 / 60;] (integer division). *)
Definition FPS60 : Z := Z.quot 1000 60.

(** The lambda [schedNextFrameWith]: push a fresh message of the given
    kind and set the captured [nextFrame]; the result is the new value of
    [nextFrame]. *)
Definition schedNextFrameWith (t : MessageType) : M bool :=
  pushMessage (Msg t);;
  mret true.

(** The [switch (message.type)] of the loop body.  [nextFrame] is the
    local flag on entry, the result its value on exit. *)
Definition dispatch (message : Message) (nextFrame : bool) : M bool :=
  match type message with
  | ClearScreen =>
      emit (ClearCanvas Platinum);;
      mret nextFrame
  | InitEmptyScene =>
      modify (withShouldRender true);;
      emit InitScene;;
      emit UpdateView;;
      mret nextFrame
  | InitStepFile =>
      doc ← gets currentlyViewingDoc;
      emit (InitStepFileCall doc);;
      mret nextFrame
  | NextFrame =>
      schedNextFrameWith NextFrame
  | DrawLoadingScreen =>
      emit (ClearCanvas Platinum);;
      render ← gets (λ c, shouldRender (viewController c));
      (if render : bool
       then p ← createShaderProgram vertexShaderSource fragmentShaderSource;
            modify (withShaderProgram p)
       else mret ());;
      modify (withShouldRender false);;
      prog ← gets shaderProgram;
      params ← gets spinnerParams;
      emit (DrawLoadingScreenCall prog params);;
      spinning ← gets showingSpinner;
      if spinning : bool
      then schedNextFrameWith DrawLoadingScreen
      else modify (withShouldRender true);;
           mret false
  | _ =>
      emit (Cout "Unhandled MessageType::");;
      mret nextFrame
  end.

(** One iteration of [while (!localQueue.empty())] for the message at the
    front: the switch, then the re-push of the successor. *)
Definition handleMessage (message : Message) (nextFrame : bool) : M bool :=
  noteHandled message;;
  nextFrame ← dispatch message nextFrame;
  match nextMessage message with
  | Some next => pushMessage next;; mret true
  | None => mret (nextFrame : bool)
  end.

Fixpoint whileLocalQueue (localQueue : list Message) (nextFrame : bool)
  : M bool :=
  match localQueue with
  | [] => mret nextFrame
  | message :: localQueue' =>
      nextFrame ← handleMessage message nextFrame;
      whileLocalQueue localQueue' nextFrame
  end.

(** [StaircaseViewer::handleMessages].  The source returns nothing; the
    result here is the final [nextFrame], that is, whether the timer was
    armed. *)
Definition handleMessages : M bool :=
  localQueue ← drainMessageQueue;
  nextFrame ← whileLocalQueue localQueue false;
  (if nextFrame : bool then emit (SetTimeout FPS60) else mret ());;
  mret nextFrame.

(** The end of the constructor [StaircaseViewer::StaircaseViewer], after
    canvas, view and shader are set up: the push that kicks off the event
    loop and the request for a first invocation. *)
Definition kickOff : M () :=
  pushMessage (Msg NextFrame);;
  emit RunInMainRuntimeThread.

(** [StaircaseViewer::initEmptyScene]. *)
Definition initEmptyScene : M () :=
  pushChain [ClearScreen; ClearScreen; ClearScreen; InitEmptyScene;
             NextFrame].

(** The completion callback that [_loadStepFile] passes to
    [readStepFile], statement by statement. *)
Definition onStepFileRead_body (docOpt : option DocHandle) : list Step :=
  match docOpt with
  | None =>
      [Call (Cerr "Failed to read STEP file: DocHandle is empty")]
  | Some aDoc =>
      [Call (PrintLabels aDoc);
       Call (Cout "STEP File Loaded!");
       SetShowingSpinner false;
       SetCurrentlyViewingDoc aDoc;
       PushChain [ClearScreen; ClearScreen; ClearScreen; InitStepFile;
                  NextFrame];
       Call RunInMainRuntimeThread]
  end.

Definition onStepFileRead (docOpt : option DocHandle) : M () :=
  runSteps (onStepFileRead_body docOpt).

(** [StaircaseViewer::_loadStepFile], statement by statement;
    [stepFileContent] is the viewer's field, [result] the outcome of
    parsing it. *)
Definition _loadStepFile_body (stepFileContent : string)
    (result : option DocHandle) : list Step :=
  SetShowingSpinner true ::
  PushMessage (Msg DrawLoadingScreen) ::
  readStepFile stepFileContent result onStepFileRead_body.

Definition _loadStepFile (stepFileContent : string)
    (result : option DocHandle) : M () :=
  runSteps (_loadStepFile_body stepFileContent result).

(** [n] scheduler invocations in a row. *)
Fixpoint ticks (n : nat) (w : World) : World :=
  match n with
  | 0 => w
  | S n' => ticks n' (exec handleMessages w)
  end.

End StaircaseViewer.

(** ** main.cpp *)

Module Main.

Definition FPS60 : Z := Z.quot 1000 60.

Definition schedNextFrameWith (t : MessageType) : M bool :=
  pushMessage (Msg t);;
  mret true.

(** The [switch (message.type)] of [handleMessages] in main.cpp.  The
    [SetStepFileContent] case casts [message.data] to a string pointer
    and calls [c_str()] on it without a check: on a message without
    payload that is a null pointer dereference. *)
Definition dispatch (message : Message) (nextFrame : bool) : MU bool :=
  match type message with
  | ClearScreen =>
      defined (emit (ClearCanvas Platinum);;
               mret nextFrame)
  | InitDemoScene =>
      defined (emit InitDemoSceneCall;;
               doc ← gets currentlyViewingDoc;
               emit (InitStepFileCall doc);;
               mret nextFrame)
  | NextFrame =>
      defined (schedNextFrameWith NextFrame)
  | DrawLoadingScreen =>
      defined (emit (ClearCanvas Platinum);;
               prog ← gets shaderProgram;
               params ← gets spinnerParams;
               emit (DrawLoadingScreenCall prog params);;
               spinning ← gets showingSpinner;
               if spinning : bool
               then schedNextFrameWith DrawLoadingScreen
               else mret false)
  | SetStepFileContent =>
      match data message with
      | Some stepFileStr =>
          defined (emit (SetStepText (c_str stepFileStr));;
                   mret nextFrame)
      | None => undefined
      end
  | _ =>
      defined (emit (Cout "Unhandled MessageType::");;
               mret nextFrame)
  end.

Definition handleMessage (message : Message) (nextFrame : bool) : MU bool :=
  andThen (defined (noteHandled message)) (λ _,
  andThen (dispatch message nextFrame) (λ nextFrame,
  defined (match nextMessage message with
           | Some next => pushMessage next;; mret true
           | None => mret (nextFrame : bool)
           end))).

Fixpoint whileLocalQueue (localQueue : list Message) (nextFrame : bool)
  : MU bool :=
  match localQueue with
  | [] => defined (mret nextFrame)
  | message :: localQueue' =>
      andThen (handleMessage message nextFrame) (λ nextFrame,
      whileLocalQueue localQueue' nextFrame)
  end.

(** [handleMessages] of main.cpp; the result is the final [nextFrame]. *)
Definition handleMessages : MU bool :=
  andThen (defined drainMessageQueue) (λ localQueue,
  andThen (whileLocalQueue localQueue false) (λ nextFrame,
  defined ((if nextFrame : bool
            then emit (SetTimeout FPS60) else mret ());;
           mret nextFrame))).

(** The completion callback that [loadStepFile] passes to
    [readStepFile], statement by statement. *)
Definition onStepFileRead_body (docOpt : option DocHandle) : list Step :=
  match docOpt with
  | None =>
      [Call (Cerr "Failed to read STEP file: DocHandle is empty")]
  | Some aDoc =>
      [Call (PrintLabels aDoc);
       Call (Cout "STEP File Loaded!");
       SetShowingSpinner false;
       SetCurrentlyViewingDoc aDoc;
       PushChain [ClearScreen; ClearScreen; ClearScreen; InitDemoScene;
                  NextFrame];
       Call RunInMainRuntimeThread]
  end.

Definition onStepFileRead (docOpt : option DocHandle) : M () :=
  runSteps (onStepFileRead_body docOpt).

(** [loadStepFile], statement by statement; [embeddedStepFile] is the
    constant of EmbeddedStepFile.hpp, [result] the outcome of parsing
    it. *)
Definition loadStepFile_body (embeddedStepFile : string)
    (result : option DocHandle) : list Step :=
  let stepFileStr := embeddedStepFile in
  let myData := stepFileStr in
  Call (Cout "loadStepFile") ::
  SetShowingSpinner true ::
  PushMessage (Msg DrawLoadingScreen) ::
  PushMessage (mkMessage SetStepFileContent (Some myData) None) ::
  Call RunInMainRuntimeThread ::
  readStepFile stepFileStr result onStepFileRead_body.

Definition loadStepFile (embeddedStepFile : string)
    (result : option DocHandle) : M () :=
  runSteps (loadStepFile_body embeddedStepFile result).

End Main.

(** ** Pure readings of one loop iteration *)

(** The messages one iteration appends to the shared queue: the fresh
    message of [schedNextFrameWith], then the successor. *)
Definition selfPush (spinning : bool) (m : Message) : list Message :=
  match type m with
  | NextFrame => [Msg NextFrame]
  | DrawLoadingScreen => if spinning then [Msg DrawLoadingScreen] else []
  | _ => []
  end.

Definition requeued (spinning : bool) (m : Message) : list Message :=
  selfPush spinning m ++ option_list (nextMessage m).

(** The value of [nextFrame] after one iteration. *)
Definition flagAfter (spinning : bool) (nextFrame : bool) (m : Message)
  : bool :=
  match nextMessage m with
  | Some _ => true
  | None =>
      match type m with
      | NextFrame => true
      | DrawLoadingScreen => spinning
      | _ => nextFrame
      end
  end.

Definition rearm (spinning : bool) (nextFrame : bool) (l : list Message)
  : bool :=
  foldl (flagAfter spinning) nextFrame l.

(** The kinds with a [case] of their own in
    [StaircaseViewer::handleMessages]. *)
Definition handledKind (t : MessageType) : bool :=
  match t with
  | ClearScreen | InitEmptyScene | InitStepFile | NextFrame
  | DrawLoadingScreen => true
  | _ => false
  end.

(** A message that raises [nextFrame] when the spinner is off, and one
    that lowers it. *)
Definition requestsReschedule (m : Message) : bool :=
  match nextMessage m with
  | Some _ => true
  | None => bool_decide (type m = NextFrame)
  end.

Definition cancelsReschedule (m : Message) : bool :=
  match nextMessage m with
  | Some _ => false
  | None => bool_decide (type m = DrawLoadingScreen)
  end.

(** The [k]-th successor of a message. *)
Fixpoint successor (k : nat) (m : Message) : option Message :=
  match k with
  | 0 => Some m
  | S k' => n ← nextMessage m; successor k' n
  end.

(** The nodes [chain] lays out for [types] from address [base] on. *)
Fixpoint linked (base : nat) (types : list MessageType) : list Node :=
  match types with
  | [] => []
  | t :: ts =>
      {| ntype := t;
         nnext := match ts with [] => None | _ :: _ => Some (S base) end |}
      :: linked (S base) ts
  end.


(** ** Framing: what a computation does not look at *)

(** The world with its queue, trace and history emptied. *)
Definition blank (w : World) : World :=
  {| context := withQueue [] (context w);
     effects := [];
     handled := [];
     glPrograms := glPrograms w |}.

(** [d] replayed after [w]: queue, trace and history of [d] are appended to
    those of [w], everything else is as in [d]. *)
Definition graft (w d : World) : World :=
  {| context :=
       withQueue (messageQueue (context w) ++ messageQueue (context d))
                 (context d);
     effects := effects w ++ effects d;
     handled := handled w ++ handled d;
     glPrograms := glPrograms d |}.

(** A computation is framed when it only appends to the queue, the trace
    and the history, and reads none of the three. *)
Definition framed {A} (c : M A) : Prop :=
  ∀ w, c w = (fst (c (blank w)), graft w (snd (c (blank w)))).

Create HintDb framed discriminated.

(** Framing of a primitive: by computation on an explicit world. *)
Ltac frame_prim :=
  intros [[q sp doc vc prog params] fx hd gl];
  unfold graft, blank, withQueue; simpl;
  rewrite ?app_nil_r; reflexivity.

(** Symbolic execution of a computation on a world given field by field. *)
Ltac run_world :=
  repeat progress
   (unfold eval, exec,
    StaircaseViewer.handleMessages, StaircaseViewer.handleMessage,
    StaircaseViewer.dispatch, StaircaseViewer.schedNextFrameWith,
    drainMessageQueue, pushMessage, createShaderProgram,
    runSteps, runStep,
    modify, gets, emit, noteHandled, mbind, mret, M_bind, M_ret,
    withQueue, withShouldRender, withShaderProgram, withShowingSpinner,
    withCurrentlyViewingDoc;
    cbn).

(** ** Sample worlds *)

Definition ctx0 : AppContext :=
  {| messageQueue := [];
     showingSpinner := false;
     currentlyViewingDoc := None;
     viewController := {| shouldRender := false |};
     shaderProgram := 0;
     spinnerParams := 0 |}.

Definition world0 : World :=
  {| context := ctx0; effects := []; handled := []; glPrograms := 0 |}.

Definition withContext (c : AppContext) (w : World) : World :=
  {| context := c; effects := effects w; handled := handled w;
     glPrograms := glPrograms w |}.


(** ** Readings used by the properties of the two schedulers *)

(** [n] invocations of [handleMessages] of main.cpp in a row, as long as
    they stay within defined behaviour. *)
Fixpoint mainTicks (n : nat) (w : World) : option World :=
  match n with
  | 0 => Some w
  | S n' =>
      match Main.handleMessages w with
      | Some (_, w') => mainTicks n' w'
      | None => None
      end
  end.

(** A message the scheduler of main.cpp can handle: a
    [SetStepFileContent] carries its payload. *)
Definition payloadOk (m : Message) : bool :=
  match type m, data m with
  | SetStepFileContent, None => false
  | _, _ => true
  end.

(** The same for the message and every successor. *)
Fixpoint payloadOkDeep (m : Message) : bool :=
  match m with
  | mkMessage t d None => payloadOk (mkMessage t d None)
  | mkMessage t d (Some n) => payloadOk (mkMessage t d None) && payloadOkDeep n
  end.

(** The calls that [handleMessages] of main.cpp makes for one message it
    can handle, read off its [switch]; the context enters through fields
    that scheduler does not write. *)
Definition mainCalls (c : AppContext) (m : Message) : list Effect :=
  match type m with
  | ClearScreen => [ClearCanvas Platinum]
  | InitDemoScene =>
      [InitDemoSceneCall; InitStepFileCall (currentlyViewingDoc c)]
  | NextFrame => []
  | DrawLoadingScreen =>
      [ClearCanvas Platinum;
       DrawLoadingScreenCall (shaderProgram c) (spinnerParams c)]
  | SetStepFileContent =>
      match data m with
      | Some stepFileStr => [SetStepText (c_str stepFileStr)]
      | None => []
      end
  | _ => [Cout "Unhandled MessageType::"]
  end.

(** Kinds whose [case] pushes nothing. *)
Definition quietKind (t : MessageType) : bool :=
  match t with
  | NextFrame | DrawLoadingScreen => false
  | _ => true
  end.

(** A message followed by its successors, each as the value that reaches
    the queue. *)
Fixpoint steps (t : MessageType) (ts : list MessageType) : list Message :=
  chainMsg t ts ::
  match ts with
  | [] => []
  | t' :: ts' => steps t' ts'
  end.

(** The chain steps a queue still holds: its messages and all their
    successors. *)
Definition pending (q : list Message) : nat :=
  sum_list_with chainLength q.

(** No [DrawLoadingScreen], neither the message nor one of its
    successors. *)
Definition noDraw (m : Message) : bool :=
  forallb (λ t, negb (bool_decide (t = DrawLoadingScreen))) (kinds m).

(** Whether a call, if it binds a document, binds [d]. *)
Definition bindsDoc (d : option DocHandle) (e : Effect) : bool :=
  match e with
  | InitStepFileCall x => bool_decide (x = d)
  | _ => true
  end.

(** The calls a load worker is seen to make: logging, the parse and the
    request for an invocation; nothing of the renderer, no timer. *)
Definition workerCall (e : Effect) : bool :=
  match e with
  | Cout _ | Cerr _ | PrintLabels _ | ReadStepFile _
  | RunInMainRuntimeThread => true
  | _ => false
  end.

(** The calls made between two worlds of one run. *)
Definition newEffects (before after : World) : list Effect :=
  drop (length (effects before)) (effects after).

(** Statements of a worker selected by [p], each with the world in which
    it starts. *)
Definition when (p : Step → bool) (l : list Step) (w : World)
  : list (Step * World) :=
  List.filter (λ sw, p (fst sw)) (runsIn l w).

(** The statements before the first one selected by [stop]. *)
Fixpoint before (stop : Step → bool) (l : list Step) : list Step :=
  match l with
  | [] => []
  | s :: l' => if stop s then [] else s :: before stop l'
  end.

Definition isParse (s : Step) : bool :=
  match s with
  | Call (ReadStepFile _) => true
  | _ => false
  end.

Definition isTrigger (s : Step) : bool :=
  match s with
  | Call RunInMainRuntimeThread => true
  | _ => false
  end.

Definition isPush (s : Step) : bool :=
  match s with
  | PushMessage _ | PushChain _ => true
  | _ => false
  end.

(** Exposing the statements of a worker and the worlds they start in. *)
Ltac run_steps :=
  unfold when, StaircaseViewer._loadStepFile, Main.loadStepFile,
    StaircaseViewer.onStepFileRead, Main.onStepFileRead,
    StaircaseViewer._loadStepFile_body, Main.loadStepFile_body,
    readStepFile, StaircaseViewer.onStepFileRead_body,
    Main.onStepFileRead_body;
  cbn [runsIn runSteps before List.filter fst isParse isTrigger isPush];
  unfold runStep, pushChain.

(** Symbolic execution for the scheduler of main.cpp. *)
Ltac run_main :=
  repeat progress
   (unfold eval, exec,
    Main.handleMessages, Main.handleMessage, Main.dispatch,
    Main.schedNextFrameWith, andThen, defined, undefined,
    drainMessageQueue, pushMessage, modify, gets, emit, noteHandled,
    mbind, mret, M_bind, M_ret, withQueue;
    cbn).
(** * Lemmas *)

(** ** The monad *)

Lemma exec_bind {A B} (c : M A) (k : A → M B) w :
  exec (c ≫= k) w = exec (k (eval c w)) (exec c w).
Proof. unfold exec, eval, mbind, M_bind. by destruct (c w). Qed.

Lemma eval_bind {A B} (c : M A) (k : A → M B) w :
  eval (c ≫= k) w = eval (k (eval c w)) (exec c w).
Proof. unfold exec, eval, mbind, M_bind. by destruct (c w). Qed.

Lemma run_eta {A} (c : M A) w : c w = (eval c w, exec c w).
Proof. unfold exec, eval. by destruct (c w). Qed.

(** ** Framing *)

Lemma withQueue_id c : withQueue (messageQueue c) c = c.
Proof. by destruct c. Qed.

Lemma graft_blank w : graft w (blank w) = w.
Proof.
  destruct w as [c fx hd gl]. unfold graft, blank; simpl.
  rewrite !app_nil_r. unfold withQueue; simpl. by destruct c.
Qed.

Lemma blank_graft w d : blank (graft w d) = blank d.
Proof. done. Qed.

Lemma graft_assoc w d1 d2 : graft (graft w d1) d2 = graft w (graft d1 d2).
Proof. unfold graft; simpl. by rewrite !app_assoc. Qed.

Lemma framed_ret {A} (x : A) : framed (mret x).
Proof. intros w. unfold mret, M_ret; simpl. by rewrite graft_blank. Qed.


Lemma framed_bind {A B} (c : M A) (k : A → M B) :
  framed c → (∀ x, framed (k x)) → framed (c ≫= k).
Proof.
  intros Hc Hk w. unfold mbind, M_bind.
  rewrite (Hc w). destruct (c (blank w)) as [x d1]; simpl.
  rewrite (Hk x (graft w d1)), blank_graft, (Hk x d1); simpl.
  by rewrite graft_assoc.
Qed.

Lemma framed_emit e : framed (emit e).
Proof. unfold emit. frame_prim. Qed.

Lemma framed_noteHandled m : framed (noteHandled m).
Proof. unfold noteHandled. frame_prim. Qed.

Lemma framed_pushMessage m : framed (pushMessage m).
Proof. unfold pushMessage, modify. frame_prim. Qed.

Lemma framed_withShouldRender b : framed (modify (withShouldRender b)).
Proof. unfold modify, withShouldRender. frame_prim. Qed.

Lemma framed_withShaderProgram p : framed (modify (withShaderProgram p)).
Proof. unfold modify, withShaderProgram. frame_prim. Qed.

Lemma framed_gets {A} (f : AppContext → A) :
  (∀ q c, f (withQueue q c) = f c) → framed (gets f).
Proof.
  intros Hf w. unfold gets; simpl. by rewrite Hf, graft_blank.
Qed.

Lemma framed_createShaderProgram vs fs : framed (createShaderProgram vs fs).
Proof. unfold createShaderProgram. frame_prim. Qed.

#[export] Hint Resolve framed_ret framed_emit framed_noteHandled
  framed_pushMessage framed_createShaderProgram framed_withShouldRender
  framed_withShaderProgram : framed.

Section Scheduler.

Import StaircaseViewer.

Lemma framed_schedNextFrameWith t : framed (schedNextFrameWith t).
Proof. unfold schedNextFrameWith. apply framed_bind; auto with framed. Qed.

Lemma framed_dispatch m nf : framed (dispatch m nf).
Proof.
  unfold dispatch.
  destruct (type m);
    repeat first
      [ apply framed_schedNextFrameWith
      | apply framed_bind; [ | intros ? ]
      | apply framed_gets; intros ? []; reflexivity
      | match goal with |- framed (if ?b then _ else _) => destruct b end
      | solve [ auto with framed ] ].
Qed.

Lemma framed_handleMessage m nf : framed (handleMessage m nf).
Proof.
  unfold handleMessage.
  apply framed_bind; [ auto with framed | intros _ ].
  apply framed_bind; [ apply framed_dispatch | intros nf' ].
  destruct (nextMessage m); [ apply framed_bind | ]; auto with framed.
Qed.

Lemma framed_whileLocalQueue l : ∀ nf, framed (whileLocalQueue l nf).
Proof.
  induction l as [ | m l IH ]; intros nf; simpl.
  - apply framed_ret.
  - apply framed_bind; [ apply framed_handleMessage | auto ].
Qed.

(** Two worlds that differ only in queue, trace and history are taken
    through the same steps. *)
Lemma framed_agree {A} (c : M A) w1 w2 :
  framed c → blank w1 = blank w2 →
  eval c w1 = eval c w2 ∧
  exec c w1 = graft w1 (exec c (blank w1)) ∧
  exec c w2 = graft w2 (exec c (blank w1)).
Proof.
  intros Hc Hb. unfold eval, exec.
  rewrite (Hc w1), (Hc w2), Hb. done.
Qed.

(** ** One iteration *)

Lemma whileLocalQueue_app l1 l2 nf w :
  whileLocalQueue (l1 ++ l2) nf w =
  whileLocalQueue l2 (eval (whileLocalQueue l1 nf) w)
                     (exec (whileLocalQueue l1 nf) w).
Proof.
  revert nf w. induction l1 as [ | m l1 IH ]; intros nf w; simpl.
  - done.
  - unfold mbind, M_bind at 1. unfold eval, exec.
    unfold mbind, M_bind.
    destruct (handleMessage m nf w) as [nf1 w1]. apply IH.
Qed.

Lemma whileLocalQueue_cons m l nf w :
  whileLocalQueue (m :: l) nf w =
  whileLocalQueue l (eval (handleMessage m nf) w)
                    (exec (handleMessage m nf) w).
Proof.
  simpl. unfold mbind, M_bind, eval, exec.
  by destruct (handleMessage m nf w).
Qed.

Lemma whileLocalQueue_middle pre m post nf w :
  whileLocalQueue (pre ++ m :: post) nf w =
  whileLocalQueue post
    (eval (handleMessage m (eval (whileLocalQueue pre nf) w))
          (exec (whileLocalQueue pre nf) w))
    (exec (handleMessage m (eval (whileLocalQueue pre nf) w))
          (exec (whileLocalQueue pre nf) w)).
Proof. by rewrite whileLocalQueue_app, whileLocalQueue_cons. Qed.

Lemma handleMessage_eval m nf w :
  eval (handleMessage m nf) w = flagAfter (showingSpinner (context w)) nf m.
Proof.
  destruct m as [t d next], w as [[q sp doc [sr] prog params] fx hd gl].
  unfold flagAfter; simpl.
  destruct next, t; try reflexivity; destruct sp, sr; reflexivity.
Qed.

Lemma handleMessage_queue m nf w :
  messageQueue (context (exec (handleMessage m nf) w)) =
  messageQueue (context w) ++ requeued (showingSpinner (context w)) m.
Proof.
  destruct m as [t d next], w as [[q sp doc [sr] prog params] fx hd gl].
  unfold requeued, selfPush; simpl.
  destruct next, t; simpl; rewrite ?app_nil_r; try reflexivity;
    destruct sp, sr; simpl; rewrite <- ?app_assoc, ?app_nil_r; reflexivity.
Qed.

Lemma handleMessage_handled m nf w :
  handled (exec (handleMessage m nf) w) = handled w ++ [m].
Proof.
  destruct m as [t d next], w as [[q sp doc [sr] prog params] fx hd gl].
  destruct next, t; try reflexivity; destruct sp, sr; reflexivity.
Qed.

Lemma handleMessage_showingSpinner m nf w :
  showingSpinner (context (exec (handleMessage m nf) w)) =
  showingSpinner (context w).
Proof.
  destruct m as [t d next], w as [[q sp doc [sr] prog params] fx hd gl].
  destruct next, t; try reflexivity; destruct sp, sr; reflexivity.
Qed.

Lemma handleMessage_currentlyViewingDoc m nf w :
  currentlyViewingDoc (context (exec (handleMessage m nf) w)) =
  currentlyViewingDoc (context w).
Proof.
  destruct m as [t d next], w as [[q sp doc [sr] prog params] fx hd gl].
  destruct next, t; try reflexivity; destruct sp, sr; reflexivity.
Qed.

(** The flag on entry does not influence what an iteration does to the
    world. *)
Lemma handleMessage_exec_flag m nf nf' w :
  exec (handleMessage m nf) w = exec (handleMessage m nf') w.
Proof.
  destruct m as [t d next], w as [[q sp doc [sr] prog params] fx hd gl].
  destruct next, t; try reflexivity; destruct sp, sr; reflexivity.
Qed.

(** ** The whole loop *)

Lemma whileLocalQueue_exec_flag l : ∀ nf nf' w,
  exec (whileLocalQueue l nf) w = exec (whileLocalQueue l nf') w.
Proof.
  induction l as [ | m l IH ]; intros nf nf' w.
  - done.
  - unfold exec at 1 2. rewrite !whileLocalQueue_cons.
    rewrite (handleMessage_exec_flag m nf nf'). apply IH.
Qed.

Lemma whileLocalQueue_showingSpinner l : ∀ nf w,
  showingSpinner (context (exec (whileLocalQueue l nf) w)) =
  showingSpinner (context w).
Proof.
  induction l as [ | m l IH ]; intros nf w.
  - done.
  - unfold exec. rewrite whileLocalQueue_cons.
    etrans; [ apply IH | apply handleMessage_showingSpinner ].
Qed.

Lemma whileLocalQueue_currentlyViewingDoc l : ∀ nf w,
  currentlyViewingDoc (context (exec (whileLocalQueue l nf) w)) =
  currentlyViewingDoc (context w).
Proof.
  induction l as [ | m l IH ]; intros nf w.
  - done.
  - unfold exec. rewrite whileLocalQueue_cons.
    etrans; [ apply IH | apply handleMessage_currentlyViewingDoc ].
Qed.

Lemma whileLocalQueue_handled l : ∀ nf w,
  handled (exec (whileLocalQueue l nf) w) = handled w ++ l.
Proof.
  induction l as [ | m l IH ]; intros nf w.
  - simpl. by rewrite app_nil_r.
  - unfold exec. rewrite whileLocalQueue_cons.
    etrans; [ apply IH | ].
    by rewrite handleMessage_handled, <- app_assoc.
Qed.

Lemma whileLocalQueue_queue l : ∀ nf w,
  messageQueue (context (exec (whileLocalQueue l nf) w)) =
  messageQueue (context w)
    ++ flat_map (requeued (showingSpinner (context w))) l.
Proof.
  induction l as [ | m l IH ]; intros nf w.
  - simpl. by rewrite app_nil_r.
  - unfold exec. rewrite whileLocalQueue_cons.
    etrans; [ apply IH | ].
    rewrite handleMessage_queue, handleMessage_showingSpinner; simpl.
    by rewrite <- app_assoc.
Qed.

Lemma whileLocalQueue_eval l : ∀ nf w,
  eval (whileLocalQueue l nf) w = rearm (showingSpinner (context w)) nf l.
Proof.
  induction l as [ | m l IH ]; intros nf w.
  - done.
  - unfold eval. rewrite whileLocalQueue_cons.
    etrans; [ apply IH | ].
    by rewrite handleMessage_eval, handleMessage_showingSpinner.
Qed.

End Scheduler.

Section Invocation.

Import StaircaseViewer.

(** The world right after [drainMessageQueue]. *)
Lemma drainMessageQueue_run w :
  drainMessageQueue w =
  (messageQueue (context w), withContext (withQueue [] (context w)) w).
Proof. done. Qed.

Lemma handleMessages_run w :
  handleMessages w =
  let l := messageQueue (context w) in
  let w0 := withContext (withQueue [] (context w)) w in
  let nf := eval (whileLocalQueue l false) w0 in
  let w1 := exec (whileLocalQueue l false) w0 in
  (nf, if nf then exec (emit (SetTimeout FPS60)) w1 else w1).
Proof.
  unfold handleMessages, mbind, M_bind. rewrite drainMessageQueue_run.
  simpl. unfold eval, exec.
  destruct (whileLocalQueue _ false _) as [[] w1]; done.
Qed.

Lemma handleMessages_eval w :
  eval handleMessages w =
  rearm (showingSpinner (context w)) false (messageQueue (context w)).
Proof.
  unfold eval at 1. rewrite handleMessages_run; simpl.
  by rewrite whileLocalQueue_eval.
Qed.

Lemma handleMessages_handled w :
  handled (exec handleMessages w) = handled w ++ messageQueue (context w).
Proof.
  unfold exec at 1. rewrite handleMessages_run; simpl.
  destruct (eval _ _); simpl; by rewrite whileLocalQueue_handled.
Qed.

Lemma handleMessages_queue w :
  messageQueue (context (exec handleMessages w)) =
  flat_map (requeued (showingSpinner (context w)))
           (messageQueue (context w)).
Proof.
  unfold exec at 1. rewrite handleMessages_run; simpl.
  destruct (eval _ _); simpl; by rewrite whileLocalQueue_queue.
Qed.

Lemma handleMessages_showingSpinner w :
  showingSpinner (context (exec handleMessages w)) =
  showingSpinner (context w).
Proof.
  unfold exec at 1. rewrite handleMessages_run; simpl.
  destruct (eval _ _); simpl; by rewrite whileLocalQueue_showingSpinner.
Qed.

Lemma handleMessages_currentlyViewingDoc w :
  currentlyViewingDoc (context (exec handleMessages w)) =
  currentlyViewingDoc (context w).
Proof.
  unfold exec at 1. rewrite handleMessages_run; simpl.
  destruct (eval _ _); simpl;
    by rewrite whileLocalQueue_currentlyViewingDoc.
Qed.

Lemma ticks_S n w : ticks (S n) w = exec handleMessages (ticks n w).
Proof.
  revert w. induction n as [ | n IH ]; intros w; [ done | ].
  change (ticks (S (S n)) w) with (ticks (S n) (exec handleMessages w)).
  by rewrite IH.
Qed.

Lemma ticks_showingSpinner n w :
  showingSpinner (context (ticks n w)) = showingSpinner (context w).
Proof.
  induction n as [ | n IH ]; [ done | ].
  by rewrite ticks_S, handleMessages_showingSpinner.
Qed.

End Invocation.

(** ** The chain builder *)

Section Chain.

Lemma length_linked ts : ∀ base, length (linked base ts) = length ts.
Proof. induction ts as [ | t ts IH ]; intros base; simpl; auto. Qed.

Lemma linked_snoc ts : ∀ base t,
  linked base (ts ++ [t]) =
  alter (setNext (base + length ts)) (pred (length ts)) (linked base ts)
    ++ [{| ntype := t; nnext := None |}].
Proof.
  induction ts as [ | a ts IH ]; intros base t; [ done | ].
  destruct ts as [ | a' ts ].
  - simpl. unfold setNext; simpl. by rewrite Nat.add_1_r.
  - change ((a :: a' :: ts) ++ [t]) with (a :: ((a' :: ts) ++ [t])).
    change (linked base (a :: (a' :: ts) ++ [t]))
      with ({| ntype := a; nnext := Some (S base) |}
              :: linked (S base) ((a' :: ts) ++ [t])).
    rewrite IH.
    replace (base + length (a :: a' :: ts))
      with (S base + length (a' :: ts)) by (simpl; lia).
    reflexivity.
Qed.

Lemma chainFrom_spec h ts :
  chainFrom h ts =
  {| store := h ++ linked (length h) ts;
     head := match ts with [] => None | _ :: _ => Some (length h) end;
     current := match ts with
                | [] => None
                | _ :: _ => Some (length h + pred (length ts))
                end |}.
Proof.
  unfold chainFrom. induction ts as [ | t ts IH ] using rev_ind.
  - simpl. by rewrite app_nil_r.
  - rewrite foldl_snoc, IH. unfold createAndLink, make_shared; simpl.
    rewrite linked_snoc, length_app, length_linked.
    destruct ts as [ | a ts ]; simpl.
    + by rewrite app_nil_r, Nat.add_0_r.
    + rewrite length_app; simpl. f_equal.
      * rewrite <- app_assoc.
        rewrite (alter_app_r _ h _ (length ts)).
        rewrite app_assoc.
        rewrite (alter_app_l _ _ [_]);
          [ by rewrite <- !app_assoc
          | simpl; rewrite length_linked; lia ].
      * f_equal. lia.
Qed.

Lemma linked_imap ts : ∀ base,
  linked base ts =
  imap (λ i t, {| ntype := t;
                  nnext := if decide (S i < length ts)
                           then Some (base + S i) else None |}) ts.
Proof.
  induction ts as [ | t ts IH ]; intros base; [ done | ].
  simpl. f_equal.
  - destruct ts; simpl; [ done | ]. by rewrite Nat.add_1_r.
  - rewrite IH. apply imap_ext. intros i x _; simpl.
    f_equal. repeat case_decide; try lia; try done.
    f_equal. lia.
Qed.

Lemma linked_head pre a t ts :
  a = length pre →
  (pre ++ linked a (t :: ts)) !! a =
  Some {| ntype := t;
          nnext := match ts with [] => None | _ :: _ => Some (S a) end |}.
Proof. intros ->. by rewrite lookup_app_r, Nat.sub_diag by lia. Qed.

Lemma linked_shift pre a t t' ts :
  pre ++ linked a (t :: t' :: ts) =
  (pre ++ [{| ntype := t; nnext := Some (S a) |}])
    ++ linked (S a) (t' :: ts).
Proof. by rewrite <- app_assoc. Qed.

Lemma walk_linked ts : ∀ t pre a,
  a = length pre →
  walk (S (length ts)) (pre ++ linked a (t :: ts)) a
  = Some (seq a (S (length ts))).
Proof.
  induction ts as [ | t' ts IH ]; intros t pre a Ha.
  - cbn [walk length]. by rewrite linked_head.
  - change (walk (S (length (t' :: ts))) ?h ?x)
      with (n ← h !! x;
            match nnext n with
            | None => Some [x]
            | Some b => rest ← walk (S (length ts)) h b; Some (x :: rest)
            end).
    rewrite linked_head by done. cbn [mbind option_bind nnext].
    rewrite linked_shift, IH; [ done | ].
    rewrite length_app; simpl; lia.
Qed.

Lemma deref_linked ts : ∀ t pre a,
  a = length pre →
  deref (S (length ts)) (pre ++ linked a (t :: ts)) a
  = Some (chainMsg t ts).
Proof.
  induction ts as [ | t' ts IH ]; intros t pre a Ha.
  - cbn [deref length]. by rewrite linked_head.
  - change (deref (S (length (t' :: ts))) ?h ?x)
      with (n ← h !! x;
            match nnext n with
            | None => Some (mkMessage (ntype n) None None)
            | Some b =>
                m ← deref (S (length ts)) h b;
                Some (mkMessage (ntype n) None (Some m))
            end).
    rewrite linked_head by done. cbn [mbind option_bind nnext ntype].
    rewrite linked_shift, IH; [ done | ].
    rewrite length_app; simpl; lia.
Qed.

Lemma chainValue_cons t ts : chainValue (t :: ts) = Some (chainMsg t ts).
Proof.
  unfold chainValue, chain. rewrite chainFrom_spec.
  cbn [store head mbind option_bind app length].
  rewrite (length_linked (t :: ts) 0).
  by apply (deref_linked ts t [] 0).
Qed.

Lemma kinds_chainMsg ts : ∀ t, kinds (chainMsg t ts) = t :: ts.
Proof.
  induction ts as [ | t' ts IH ]; intros t; simpl; [ done | ].
  by rewrite IH.
Qed.

Lemma chainLength_chainMsg ts : ∀ t, chainLength (chainMsg t ts) = S (length ts).
Proof.
  induction ts as [ | t' ts IH ]; intros t; simpl; [ done | ].
  by rewrite IH.
Qed.

End Chain.

(** ** The flag with the spinner off *)

Section Flag.

Lemma flagAfter_off nf x :
  flagAfter false nf x =
  if requestsReschedule x then true
  else if cancelsReschedule x then false else nf.
Proof.
  destruct x as [t d [ n | ]]; unfold flagAfter, requestsReschedule,
    cancelsReschedule; simpl; [ done | ].
  destruct t; done.
Qed.

Lemma rearm_snoc sp nf l x :
  rearm sp nf (l ++ [x]) = flagAfter sp (rearm sp nf l) x.
Proof. unfold rearm. by rewrite foldl_snoc. Qed.

Lemma rearm_app sp nf l1 l2 :
  rearm sp nf (l1 ++ l2) = rearm sp (rearm sp nf l1) l2.
Proof. unfold rearm. by rewrite foldl_app. Qed.

(** With the spinner off the final flag is decided by the last message
    that raises or lowers it. *)
Lemma rearm_off_true l :
  rearm false false l = true ↔
  ∃ a m b, l = a ++ m :: b ∧ requestsReschedule m = true
           ∧ forallb (λ x, negb (cancelsReschedule x)) b = true.
Proof.
  induction l as [ | x l IH ] using rev_ind.
  - split; [ done | ]. intros (a & m & b & H & _). by destruct a.
  - rewrite rearm_snoc, flagAfter_off.
    destruct (requestsReschedule x) eqn:Hr.
    { split; [ intros _ | done ]. by exists l, x, []. }
    destruct (cancelsReschedule x) eqn:Hc.
    { split; [ done | ]. intros (a & m & b & H & Hm & Hb).
      destruct b as [ | y b _ ] using rev_ind.
      - apply (app_inj_tail l a x m) in H as [_ ->]. congruence.
      - rewrite app_comm_cons, app_assoc in H.
        apply app_inj_tail in H as [_ ->].
        rewrite forallb_app in Hb. simpl in Hb. rewrite Hc in Hb.
        simpl in Hb. by rewrite andb_false_r in Hb. }
    rewrite IH. split.
    + intros (a & m & b & -> & Hm & Hb). exists a, m, (b ++ [x]).
      rewrite forallb_app, Hb; simpl. rewrite Hc.
      by rewrite <- app_assoc.
    + intros (a & m & b & H & Hm & Hb).
      destruct b as [ | y b _ ] using rev_ind.
      * apply (app_inj_tail l a x m) in H as [_ ->]. congruence.
      * rewrite app_comm_cons, app_assoc in H.
        apply app_inj_tail in H as [-> ->].
        rewrite forallb_app in Hb. apply andb_true_iff in Hb as [Hb _].
        by exists a, m, b.
Qed.

End Flag.

(** ** Successors across ticks *)

Section Successors.

Import StaircaseViewer.

Lemma successor_chainMsg k : ∀ t ts,
  successor k (chainMsg t ts) =
  match drop k (t :: ts) with
  | [] => None
  | t' :: ts' => Some (chainMsg t' ts')
  end.
Proof.
  induction k as [ | k IH ]; intros t ts; [ done | ].
  destruct ts as [ | t' ts ]; simpl.
  - by rewrite drop_nil.
  - apply IH.
Qed.

(** A message in the queue is handled by the next tick, which leaves its
    successor in the queue. *)
Lemma handleMessages_successor w q1 m q2 n :
  messageQueue (context w) = q1 ++ m :: q2 →
  nextMessage m = Some n →
  ∃ a b, messageQueue (context (exec handleMessages w)) = a ++ n :: b.
Proof.
  intros Hq Hn. rewrite handleMessages_queue, Hq, flat_map_app; simpl.
  unfold requeued at 2. rewrite Hn; simpl.
  exists (flat_map (requeued (showingSpinner (context w))) q1
            ++ selfPush (showingSpinner (context w)) m),
         (flat_map (requeued (showingSpinner (context w))) q2).
  by rewrite <- !app_assoc.
Qed.

Lemma ticks_successor k : ∀ w q1 m q2 n,
  messageQueue (context w) = q1 ++ m :: q2 →
  successor k m = Some n →
  ∃ a b, messageQueue (context (ticks k w)) = a ++ n :: b.
Proof.
  induction k as [ | k IH ]; intros w q1 m q2 n Hq Hn.
  - simpl in *. injection Hn as <-. eauto.
  - simpl in Hn. destruct (nextMessage m) as [ m' | ] eqn:Hm; [ | done ].
    simpl in Hn.
    destruct (handleMessages_successor w q1 m q2 m' Hq Hm) as (a & b & H).
    simpl. eapply IH; eauto.
Qed.

End Successors.

(** ** Ticks over a queue of one message *)

Section SingleMessage.

Import StaircaseViewer.

Lemma tick_ClearScreen c fx hd gl d n :
  handleMessages
    {| context := withQueue [mkMessage ClearScreen d (Some n)] c;
       effects := fx; handled := hd; glPrograms := gl |} =
  (true,
   {| context := withQueue [n] c;
      effects := fx ++ [ClearCanvas Platinum; SetTimeout 16];
      handled := hd ++ [mkMessage ClearScreen d (Some n)];
      glPrograms := gl |}).
Proof. destruct c. run_world. by rewrite <- ?app_assoc. Qed.

Lemma tick_InitEmptyScene c fx hd gl d n :
  handleMessages
    {| context := withQueue [mkMessage InitEmptyScene d (Some n)] c;
       effects := fx; handled := hd; glPrograms := gl |} =
  (true,
   {| context := withQueue [n] (withShouldRender true c);
      effects := fx ++ [InitScene; UpdateView; SetTimeout 16];
      handled := hd ++ [mkMessage InitEmptyScene d (Some n)];
      glPrograms := gl |}).
Proof. destruct c. run_world. by rewrite <- ?app_assoc. Qed.

Lemma tick_NextFrame c fx hd gl d :
  handleMessages
    {| context := withQueue [mkMessage NextFrame d None] c;
       effects := fx; handled := hd; glPrograms := gl |} =
  (true,
   {| context := withQueue [Msg NextFrame] c;
      effects := fx ++ [SetTimeout 16];
      handled := hd ++ [mkMessage NextFrame d None];
      glPrograms := gl |}).
Proof. destruct c. by run_world. Qed.

End SingleMessage.

(** ** The loop the constructor starts, and the binding step of main.cpp *)

Section KickOff.

Import StaircaseViewer.

(** Once the constructor has pushed its [NextFrame], every tick arms the
    timer again and leaves a [NextFrame] in the queue. *)
Lemma kickOff_keeps_ticking n w :
  messageQueue (context w) = [] →
  messageQueue (context (ticks n (exec kickOff w))) = [Msg NextFrame]
  ∧ eval handleMessages (ticks n (exec kickOff w)) = true.
Proof.
  intros Hq.
  assert (messageQueue (context (ticks n (exec kickOff w)))
          = [Msg NextFrame]) as Hn.
  { induction n as [ | n IH ].
    - destruct w as [c fx hd gl]; simpl in *. by rewrite Hq.
    - by rewrite ticks_S, handleMessages_queue, IH. }
  split; [ done | ]. by rewrite handleMessages_eval, Hn.
Qed.

(** In main.cpp the [InitDemoScene] step is the one that binds the
    current document into the view. *)
Lemma main_InitDemoScene_binds_the_document d next nf w :
  Main.dispatch (mkMessage InitDemoScene d next) nf w =
  Some (nf,
        {| context := context w;
           effects :=
             effects w
               ++ [InitDemoSceneCall;
                   InitStepFileCall (currentlyViewingDoc (context w))];
           handled := handled w;
           glPrograms := glPrograms w |}).
Proof.
  destruct w as [c fx hd gl]. unfold Main.dispatch, defined; simpl.
  unfold mbind, M_bind, emit, gets, mret, M_ret; simpl.
  by rewrite <- app_assoc.
Qed.

End KickOff.

(** * The scheduler tick *)

Section Tick.

Import StaircaseViewer.

(** C10: an invocation of [handleMessages] handles exactly the messages
    that were in the queue when it drained it, each once and in order;
    the loop over the local queue never looks at the shared queue, so
    whatever is pushed meanwhile (the fresh [NextFrame] or
    [DrawLoadingScreen] of [schedNextFrameWith], a successor) stays in
    the shared queue and is handled by the next invocation.  The loop is
    a structural recursion over the drained list, so it ends after as
    many iterations as that list has messages. *)
Theorem handleMessages_handles_exactly_the_drained_messages w :
  let w' := exec handleMessages w in
  handled w' = handled w ++ messageQueue (context w)
  ∧ length (handled w') =
      length (handled w) + length (messageQueue (context w))
  ∧ messageQueue (context w') =
      flat_map (requeued (showingSpinner (context w)))
               (messageQueue (context w))
  ∧ handled (exec handleMessages w') =
      handled w ++ messageQueue (context w)
        ++ flat_map (requeued (showingSpinner (context w)))
                    (messageQueue (context w))
  ∧ (∀ l nf v, handled (exec (whileLocalQueue l nf) v) = handled v ++ l).
Proof.
  cbn zeta. rewrite !handleMessages_handled, handleMessages_queue.
  rewrite length_app, <- app_assoc.
  repeat split; auto using whileLocalQueue_handled.
Qed.

(** C2 (as amended): a [NextFrame] message sets [nextFrame] and makes no
    call to a collaborator, but it does change the context: a fresh
    [NextFrame] message is pushed at the tail of the queue (followed by
    the successor of the handled message, when it has one).  Nothing else
    changes.  This holds at the message's turn in any drained
    sequence. *)
Theorem nextFrame_sets_the_flag_and_pushes_a_fresh_NextFrame
    d next nf w pre post :
  let m := mkMessage NextFrame d next in
  let after v :=
    {| context :=
         withQueue (messageQueue (context v)
                      ++ Msg NextFrame :: option_list next) (context v);
       effects := effects v;
       handled := handled v ++ [m];
       glPrograms := glPrograms v |} in
  handleMessage m nf w = (true, after w)
  ∧ whileLocalQueue (pre ++ m :: post) nf w =
    whileLocalQueue post true (after (exec (whileLocalQueue pre nf) w)).
Proof.
  cbn zeta.
  assert (∀ nf v,
    handleMessage (mkMessage NextFrame d next) nf v =
    (true,
     {| context :=
          withQueue (messageQueue (context v)
                       ++ Msg NextFrame :: option_list next) (context v);
        effects := effects v;
        handled := handled v ++ [mkMessage NextFrame d next];
        glPrograms := glPrograms v |})) as Hstep.
  { intros nf' [[q sp doc vc prog params] fx hd gl].
    destruct next; run_world; rewrite <- ?app_assoc; reflexivity. }
  split; [ apply Hstep | ].
  rewrite whileLocalQueue_middle.
  assert (∀ f v, eval (handleMessage (mkMessage NextFrame d next) f) v
                 = true) as ->
    by (intros; unfold eval; by rewrite Hstep).
  unfold exec at 1. by rewrite Hstep.
Qed.

(** C2, the claim as worded fails: handling a [NextFrame] message leaves
    the context changed, the queue has grown by one message. *)
Lemma nextFrame_changes_the_queue :
  eval (handleMessage (Msg NextFrame) false) world0 = true
  ∧ messageQueue (context (exec (handleMessage (Msg NextFrame) false)
                                world0)) = [Msg NextFrame]
  ∧ context (exec (handleMessage (Msg NextFrame) false) world0)
    ≠ context world0.
Proof. repeat split. discriminate. Qed.

End Tick.

(** * The chain builder and the life of a message *)

Section ChainClaims.

Import StaircaseViewer.

(** C8: for every list of kinds, [chain] lays out one node per kind, in
    order, each node pointing to the next one and the last to nothing;
    following the pointers from the head reaches the end after as many
    hops as there are kinds, through pairwise distinct nodes, so the list
    has no cycle.  A drained message is handled once: an invocation adds
    exactly the drained messages to the history, and what it leaves in
    the queue are successors and the fresh messages of
    [schedNextFrameWith], not the handled messages themselves. *)
Theorem chain_is_acyclic_and_messages_are_consumed_once :
  (∀ types,
     store (chain types) =
       imap (λ i t, {| ntype := t;
                       nnext := if decide (S i < length types)
                                then Some (S i) else None |}) types
     ∧ head (chain types) =
         match types with [] => None | _ :: _ => Some 0 end)
  ∧ (∀ t ts,
       walk (length (store (chain (t :: ts)))) (store (chain (t :: ts))) 0
         = Some (seq 0 (length (t :: ts)))
       ∧ NoDup (seq 0 (length (t :: ts)))
       ∧ chainValue (t :: ts) = Some (chainMsg t ts)
       ∧ kinds (chainMsg t ts) = t :: ts
       ∧ chainLength (chainMsg t ts) = length (t :: ts))
  ∧ (∀ w,
       handled (exec handleMessages w) =
         handled w ++ messageQueue (context w)
       ∧ messageQueue (context (exec handleMessages w)) =
           flat_map (λ m, selfPush (showingSpinner (context w)) m
                            ++ option_list (nextMessage m))
                    (messageQueue (context w))).
Proof.
  split; [ | split ].
  - intros types. unfold chain. rewrite chainFrom_spec.
    cbn [store head app length]. split; [ | done ].
    by rewrite linked_imap.
  - intros t ts. unfold chain. rewrite chainFrom_spec.
    cbn [store app]. change (length (@nil Node)) with 0.
    rewrite (length_linked (t :: ts) 0).
    repeat split.
    + by apply (walk_linked ts t [] 0).
    + apply NoDup_seq.
    + apply chainValue_cons.
    + apply kinds_chainMsg.
    + apply chainLength_chainMsg.
  - intros w. split.
    + apply handleMessages_handled.
    + apply handleMessages_queue.
Qed.

End ChainClaims.

(** * Unhandled kinds, the spinner branch, chains over several ticks *)

Section Order.

Import StaircaseViewer.

(** C9 (as amended): a message whose kind has no [case] of its own is
    logged by the [default] branch, which touches neither the context nor
    [nextFrame]; like every message it still has its successor pushed
    (and [nextFrame] set) when it carries one, and that is its only
    effect on the context.  The messages before and after it are handled
    as if it were absent: they leave the same context, make the same
    calls and push the same messages, around the one log line and the
    one re-pushed successor. *)
Theorem unhandled_kind_is_logged_and_the_rest_goes_on m pre post nf w :
  handledKind (type m) = false →
  let w1 := exec (whileLocalQueue pre nf) w in
  let nf1 := eval (whileLocalQueue pre nf) w in
  let skipped v :=
    {| context :=
         withQueue (messageQueue (context v) ++ option_list (nextMessage m))
                   (context v);
       effects := effects v ++ [Cout "Unhandled MessageType::"];
       handled := handled v ++ [m];
       glPrograms := glPrograms v |} in
  let rest := exec (whileLocalQueue post nf1) (blank w1) in
  (∀ nf' v,
     dispatch m nf' v =
     (nf', {| context := context v;
              effects := effects v ++ [Cout "Unhandled MessageType::"];
              handled := handled v;
              glPrograms := glPrograms v |}))
  ∧ (∀ nf' v,
       handleMessage m nf' v =
       (match nextMessage m with Some _ => true | None => nf' end,
        skipped v))
  ∧ exec (whileLocalQueue (pre ++ post) nf) w = graft w1 rest
  ∧ exec (whileLocalQueue (pre ++ m :: post) nf) w = graft (skipped w1) rest
  ∧ eval (whileLocalQueue (pre ++ post) nf) w =
      eval (whileLocalQueue post nf1) w1
  ∧ eval (whileLocalQueue (pre ++ m :: post) nf) w =
      eval (whileLocalQueue post
              (match nextMessage m with Some _ => true | None => nf1 end))
           w1.
Proof.
  intros Hk. cbn zeta.
  assert (∀ nf' v,
    handleMessage m nf' v =
    (match nextMessage m with Some _ => true | None => nf' end,
     {| context :=
          withQueue (messageQueue (context v)
                       ++ option_list (nextMessage m)) (context v);
        effects := effects v ++ [Cout "Unhandled MessageType::"];
        handled := handled v ++ [m];
        glPrograms := glPrograms v |})) as Hstep.
  { intros nf' [[q sp doc vc prog params] fx hd gl].
    destruct m as [t d [ n | ]]; destruct t; try discriminate Hk;
      run_world; rewrite ?app_nil_r; reflexivity. }
  split; [ | split; [ exact Hstep | ] ].
  { intros nf' [[q sp doc vc prog params] fx hd gl].
    destruct m as [t d next]; destruct t; try discriminate Hk;
      reflexivity. }
  set (w1 := exec (whileLocalQueue pre nf) w).
  set (nf1 := eval (whileLocalQueue pre nf) w).
  assert (∀ f v, blank v = blank w1 →
            exec (whileLocalQueue post f) v =
            graft v (exec (whileLocalQueue post nf1) (blank w1)))
    as Hrest.
  { intros f v Hv.
    destruct (framed_agree (whileLocalQueue post f) v w1
                (framed_whileLocalQueue post f) Hv) as (_ & -> & _).
    rewrite Hv. f_equal. apply whileLocalQueue_exec_flag. }
  assert (∀ f v, blank v = blank w1 →
            eval (whileLocalQueue post f) v =
            eval (whileLocalQueue post f) w1) as Hflag.
  { intros f v Hv.
    by destruct (framed_agree (whileLocalQueue post f) v w1
                   (framed_whileLocalQueue post f) Hv) as (-> & _). }
  assert (∀ f v, eval (handleMessage m f) v =
                 match nextMessage m with Some _ => true | None => f end)
    as Hev by (intros; unfold eval; by rewrite Hstep).
  assert (∀ f v, exec (handleMessage m f) v =
                 {| context :=
                      withQueue (messageQueue (context v)
                                   ++ option_list (nextMessage m))
                                (context v);
                    effects := effects v ++ [Cout "Unhandled MessageType::"];
                    handled := handled v ++ [m];
                    glPrograms := glPrograms v |})
    as Hex by (intros; unfold exec; by rewrite Hstep).
  repeat split.
  - unfold exec at 1. rewrite whileLocalQueue_app. by apply Hrest.
  - unfold exec at 1. rewrite whileLocalQueue_middle, Hev, Hex.
    by apply Hrest.
  - unfold eval at 1. by rewrite whileLocalQueue_app.
  - unfold eval at 1. rewrite whileLocalQueue_middle, Hev, Hex.
    by apply Hflag.
Qed.

Lemma unhandled_kind_is_logged_and_the_rest_goes_on_witness :
  handledKind (type (Msg InitDemoScene)) = false
  ∧ exec (whileLocalQueue ([Msg ClearScreen] ++ Msg InitDemoScene
                             :: [Msg NextFrame]) false) world0 =
      {| context := withQueue [Msg NextFrame] ctx0;
         effects := [ClearCanvas Platinum; Cout "Unhandled MessageType::"];
         handled := [Msg ClearScreen; Msg InitDemoScene; Msg NextFrame];
         glPrograms := 0 |}.
Proof.
  split; [ reflexivity | ].
  exact (proj1 (proj2 (proj2 (proj2
           (unhandled_kind_is_logged_and_the_rest_goes_on
              (Msg InitDemoScene) [Msg ClearScreen] [Msg NextFrame]
              false world0 eq_refl))))).
Defined.

(** C9, the claim as worded fails: an [InitDemoScene] message, which this
    scheduler does not handle, changes the context when it carries a
    successor: the successor is pushed and a reschedule is requested. *)
Lemma unhandled_kind_with_successor_changes_the_queue :
  let m := mkMessage InitDemoScene None (Some (Msg ClearScreen)) in
  handledKind (type m) = false
  ∧ handleMessage m false world0 =
      (true, {| context := withQueue [Msg ClearScreen] ctx0;
                effects := [Cout "Unhandled MessageType::"];
                handled := [m];
                glPrograms := 0 |})
  ∧ context (exec (handleMessage m false) world0) ≠ context world0.
Proof. repeat split. discriminate. Qed.

(** C3 (as amended): with the spinner off, a [DrawLoadingScreen] message
    without successor does not request a reschedule: it lowers
    [nextFrame], whatever the messages before it in the drained sequence
    asked for.  Whether the timer is armed at the end of the invocation
    is decided by the messages after it alone: it is armed exactly when
    one of them requests a reschedule (a [NextFrame], or any message with
    a successor) and no later [DrawLoadingScreen] lowers the flag
    again. *)
Theorem spinner_off_draw_lowers_the_flag w pre d post next nf :
  showingSpinner (context w) = false →
  messageQueue (context w) =
    pre ++ mkMessage DrawLoadingScreen d None :: post →
  let dls := mkMessage DrawLoadingScreen d None in
  let w0 := withContext (withQueue [] (context w)) w in
  eval (dispatch (mkMessage DrawLoadingScreen d next) nf) w = false
  ∧ eval (whileLocalQueue (pre ++ [dls]) nf) w0 = false
  ∧ eval handleMessages w = rearm false false post
  ∧ (eval handleMessages w = true ↔
     ∃ a m b, post = a ++ m :: b ∧ requestsReschedule m = true
              ∧ forallb (λ x, negb (cancelsReschedule x)) b = true)
  ∧ effects (exec handleMessages w) =
      effects (exec (whileLocalQueue (messageQueue (context w)) false) w0)
        ++ (if eval handleMessages w then [SetTimeout FPS60] else []).
Proof.
  intros Hsp Hq. cbn zeta.
  assert (eval handleMessages w = rearm false false post) as Hflag.
  { rewrite handleMessages_eval, Hsp, Hq.
    by rewrite rearm_app; cbn [rearm foldl flagAfter nextMessage type]. }
  repeat split.
  - destruct w as [[q sp doc [sr] prog params] fx hd gl].
    simpl in Hsp; subst sp. by destruct sr.
  - rewrite whileLocalQueue_eval.
    cbn [context withContext showingSpinner withQueue].
    rewrite Hsp, rearm_snoc. done.
  - done.
  - rewrite Hflag. apply rearm_off_true.
  - rewrite Hflag. apply rearm_off_true.
  - unfold eval, exec. rewrite handleMessages_run; cbn zeta.
    unfold eval, exec, withContext.
    destruct (whileLocalQueue _ false _) as [[] v]; simpl;
      by rewrite ?app_nil_r.
Qed.

Lemma spinner_off_draw_lowers_the_flag_witness :
  let w := withContext
             (withQueue [Msg NextFrame; Msg DrawLoadingScreen;
                         Msg NextFrame] ctx0) world0 in
  showingSpinner (context w) = false
  ∧ messageQueue (context w) =
      [Msg NextFrame] ++ mkMessage DrawLoadingScreen None None
        :: [Msg NextFrame]
  ∧ eval handleMessages w = true.
Proof.
  split; [ reflexivity | ]. split; [ reflexivity | ].
  exact (proj1 (proj2 (proj2
           (spinner_off_draw_lowers_the_flag
              (withContext
                 (withQueue [Msg NextFrame; Msg DrawLoadingScreen;
                             Msg NextFrame] ctx0) world0)
              [Msg NextFrame] None [Msg NextFrame] None false
              eq_refl eq_refl)))).
Defined.

(** C3, the claim as worded fails: with the spinner off, the reschedule
    that a [NextFrame] requests is lost when a [DrawLoadingScreen]
    follows it in the same drained sequence; the timer is not armed. *)
Lemma earlier_request_is_lost :
  let w := withContext (withQueue [Msg NextFrame; Msg DrawLoadingScreen]
                                  ctx0) world0 in
  showingSpinner (context w) = false
  ∧ eval (handleMessage (Msg NextFrame) false) w = true
  ∧ eval handleMessages w = false
  ∧ effects (exec handleMessages w) =
      [ClearCanvas Platinum; DrawLoadingScreenCall 0 0].
Proof. repeat split. Qed.

(** C4 (as amended): the steps of a chain enqueued as one linked value
    are handled in chain order, one per scheduler tick on consecutive
    ticks: after [k] ticks the [k]-th successor of the head is in the
    queue, and tick [k + 1] handles it together with everything else that
    queue holds.  Messages of other chains in the queue are handled in
    those same ticks, between the steps of this chain. *)
Theorem chain_steps_run_in_order_one_per_tick t ts w q1 q2 k t' ts' :
  messageQueue (context w) = q1 ++ chainMsg t ts :: q2 →
  drop k (t :: ts) = t' :: ts' →
  successor k (chainMsg t ts) = Some (chainMsg t' ts')
  ∧ ∃ a b,
      messageQueue (context (ticks k w)) = a ++ chainMsg t' ts' :: b
      ∧ handled (ticks (S k) w) =
          handled (ticks k w) ++ a ++ chainMsg t' ts' :: b.
Proof.
  intros Hq Hk.
  assert (successor k (chainMsg t ts) = Some (chainMsg t' ts')) as Hs
    by (by rewrite successor_chainMsg, Hk).
  split; [ done | ].
  destruct (ticks_successor k w q1 _ q2 _ Hq Hs) as (a & b & H).
  exists a, b. split; [ done | ].
  by rewrite ticks_S, handleMessages_handled, H.
Qed.

Lemma chain_steps_run_in_order_one_per_tick_witness :
  let w := withContext
             (withQueue [chainMsg InitEmptyScene [InitStepFile];
                         chainMsg ClearScreen [ClearScreen]] ctx0)
             world0 in
  messageQueue (context w) =
    [] ++ chainMsg InitEmptyScene [InitStepFile]
      :: [chainMsg ClearScreen [ClearScreen]]
  ∧ drop 1 [InitEmptyScene; InitStepFile] = [InitStepFile]
  ∧ successor 1 (chainMsg InitEmptyScene [InitStepFile]) =
      Some (chainMsg InitStepFile []).
Proof.
  split; [ reflexivity | ]. split; [ reflexivity | ].
  exact (proj1
           (chain_steps_run_in_order_one_per_tick
              InitEmptyScene [InitStepFile]
              (withContext
                 (withQueue [chainMsg InitEmptyScene [InitStepFile];
                             chainMsg ClearScreen [ClearScreen]] ctx0)
                 world0)
              [] [chainMsg ClearScreen [ClearScreen]] 1 InitStepFile []
              eq_refl eq_refl)).
Defined.

(** C4, the claim as worded fails: two chains pushed one after the other
    are handled in lockstep; the first step of the second chain is
    handled between the two steps of the first. *)
Lemma two_chains_interleave :
  let w := exec (pushChain [InitEmptyScene; InitStepFile];;
                 pushChain [ClearScreen; ClearScreen]) world0 in
  type <$> handled (ticks 2 w) =
    [InitEmptyScene; ClearScreen; InitStepFile; ClearScreen]
  ∧ ¬ ∃ pre post,
        type <$> handled (ticks 2 w) =
        pre ++ [InitEmptyScene; InitStepFile] ++ post.
Proof.
  split; [ reflexivity | ].
  intros (pre & post & H). vm_compute in H.
  destruct pre as [ | ? [ | ? [ | ? [ | ? pre ]]]]; simplify_eq.
  by destruct pre.
Qed.

End Order.

(** * The empty-scene chain *)

Section EmptyScene.

Import StaircaseViewer.

(** C1 (as amended): when [initEmptyScene] pushes its chain into an empty
    queue, one invocation handles the head only; the five steps
    [ClearScreen], [ClearScreen], [ClearScreen], [InitEmptyScene],
    [NextFrame] are handled in that order by five invocations in a row,
    one step each.  Every one of the five ends by arming the timer, the
    document handle is still unset and the spinner flag is what it
    was. *)
Theorem initEmptyScene_steps_take_five_ticks w :
  messageQueue (context w) = [] →
  currentlyViewingDoc (context w) = None →
  let w0 := exec initEmptyScene w in
  let steps :=
    [ClearScreen; ClearScreen; ClearScreen; InitEmptyScene; NextFrame] in
  Forall (λ k, type <$> handled (ticks k w0) =
                 (type <$> handled w) ++ take k steps
               ∧ currentlyViewingDoc (context (ticks k w0)) = None
               ∧ showingSpinner (context (ticks k w0)) =
                   showingSpinner (context w))
         (seq 0 6)
  ∧ Forall (λ k, eval handleMessages (ticks k w0) = true) (seq 0 5)
  ∧ effects (ticks 5 w0) =
      effects w ++
      [ClearCanvas Platinum; SetTimeout 16;
       ClearCanvas Platinum; SetTimeout 16;
       ClearCanvas Platinum; SetTimeout 16;
       InitScene; UpdateView; SetTimeout 16;
       SetTimeout 16].
Proof.
  destruct w as [c fx hd gl]; cbn [context effects handled].
  intros Hq Hdoc. cbn zeta.
  assert (exec initEmptyScene
            {| context := c; effects := fx; handled := hd;
               glPrograms := gl |} =
          {| context :=
               withQueue [chainMsg ClearScreen
                            [ClearScreen; ClearScreen; InitEmptyScene;
                             NextFrame]] c;
             effects := fx; handled := hd; glPrograms := gl |}) as ->.
  { unfold initEmptyScene, pushChain. rewrite chainValue_cons.
    unfold exec, pushMessage, modify; cbn [snd context].
    by rewrite Hq. }
  cbn [chainMsg].
  repeat split; repeat (apply Forall_cons; split);
    try apply Forall_nil;
    cbn [ticks]; unfold exec, eval, Msg;
    repeat (rewrite ?tick_ClearScreen, ?tick_InitEmptyScene,
              ?tick_NextFrame; cbn [fst snd]);
    cbn [handled effects context take];
    rewrite ?fmap_app, ?app_nil_r, <- ?app_assoc;
    repeat split; done.
Qed.

Lemma initEmptyScene_steps_take_five_ticks_witness :
  messageQueue (context world0) = []
  ∧ currentlyViewingDoc (context world0) = None
  ∧ effects (ticks 5 (exec initEmptyScene world0)) =
      [ClearCanvas Platinum; SetTimeout 16;
       ClearCanvas Platinum; SetTimeout 16;
       ClearCanvas Platinum; SetTimeout 16;
       InitScene; UpdateView; SetTimeout 16;
       SetTimeout 16].
Proof.
  split; [ reflexivity | ]. split; [ reflexivity | ].
  exact (proj2 (proj2
           (initEmptyScene_steps_take_five_ticks world0 eq_refl eq_refl))).
Defined.

(** C1, the claim as worded fails: after the push into an empty queue,
    one invocation handles the first [ClearScreen] and nothing else. *)
Lemma one_tick_handles_the_head_only :
  let w1 := exec handleMessages (exec initEmptyScene world0) in
  type <$> handled w1 = [ClearScreen]
  ∧ effects w1 = [ClearCanvas Platinum; SetTimeout 16]
  ∧ type <$> handled w1 ≠
      [ClearScreen; ClearScreen; ClearScreen; InitEmptyScene; NextFrame].
Proof. repeat split. discriminate. Qed.

End EmptyScene.

(** * The load workers *)

Section Workers.



(** C6 (as amended): on a successful parse the completion callback of
    either worker clears [showingSpinner] and sets the document handle
    before it pushes anything: its one push starts in a world that has
    both writes and the queue as it was.  What it pushes is one chain,
    three [ClearScreen] followed by the document-binding kind and
    [NextFrame]; then, with the chain in the queue, it asks once for a
    run of [handleMessages].  The document-binding kind is
    [InitStepFile] in the viewer's worker and [InitDemoScene] in the
    worker of main.cpp. *)
Theorem completion_callback_publishes_then_pushes_the_chain aDoc w :
  let loaded :=
    {| context :=
         withCurrentlyViewingDoc (Some aDoc)
           (withShowingSpinner false (context w));
       effects := effects w ++ [PrintLabels aDoc; Cout "STEP File Loaded!"];
       handled := handled w;
       glPrograms := glPrograms w |} in
  let pushed bind :=
    {| context :=
         withQueue
           (messageQueue (context w)
              ++ [chainMsg ClearScreen
                    [ClearScreen; ClearScreen; bind; NextFrame]])
           (context loaded);
       effects := effects loaded;
       handled := handled w;
       glPrograms := glPrograms w |} in
  let triggered bind :=
    {| context := context (pushed bind);
       effects := effects loaded ++ [RunInMainRuntimeThread];
       handled := handled w;
       glPrograms := glPrograms w |} in
  when isPush (StaircaseViewer.onStepFileRead_body (Some aDoc)) w =
    [(PushChain [ClearScreen; ClearScreen; ClearScreen; InitStepFile;
                 NextFrame], loaded)]
  ∧ when isTrigger (StaircaseViewer.onStepFileRead_body (Some aDoc)) w =
      [(Call RunInMainRuntimeThread, pushed InitStepFile)]
  ∧ StaircaseViewer.onStepFileRead (Some aDoc) w =
      ((), triggered InitStepFile)
  ∧ when isPush (Main.onStepFileRead_body (Some aDoc)) w =
      [(PushChain [ClearScreen; ClearScreen; ClearScreen; InitDemoScene;
                   NextFrame], loaded)]
  ∧ when isTrigger (Main.onStepFileRead_body (Some aDoc)) w =
      [(Call RunInMainRuntimeThread, pushed InitDemoScene)]
  ∧ Main.onStepFileRead (Some aDoc) w = ((), triggered InitDemoScene).
Proof.
  destruct w as [[q sp doc vc prog params] fx hd gl].
  repeat split;
    run_steps; rewrite ?chainValue_cons;
    cbv -[app]; rewrite <- ?app_assoc, ?app_nil_r; reflexivity.
Qed.

(** C6, the claim as worded fails: the completion callback of main.cpp
    pushes a chain whose fourth kind is [InitDemoScene], not
    [InitStepFile]. *)
Lemma main_worker_chain_binds_with_InitDemoScene :
  kinds <$> messageQueue (context (exec (Main.onStepFileRead (Some 7))
                                        world0)) =
    [[ClearScreen; ClearScreen; ClearScreen; InitDemoScene; NextFrame]]
  ∧ kinds <$> messageQueue (context (exec (Main.onStepFileRead (Some 7))
                                          world0)) ≠
      [[ClearScreen; ClearScreen; ClearScreen; InitStepFile; NextFrame]].
Proof. split; [ reflexivity | discriminate ]. Qed.

(** C7: when the parse yields no document the completion callback of
    either worker writes one line to the error stream and returns: the
    context is left as it was, so [showingSpinner] stays as the worker
    set it before the parse (true), the document handle stays what it
    was, and nothing is pushed. *)
Theorem failed_parse_leaves_the_context_unchanged content w :
  let logged v :=
    {| context := context v;
       effects := effects v
                    ++ [Cerr "Failed to read STEP file: DocHandle is empty"];
       handled := handled v;
       glPrograms := glPrograms v |} in
  StaircaseViewer.onStepFileRead None w = ((), logged w)
  ∧ Main.onStepFileRead None w = ((), logged w)
  ∧ (let w' := exec (StaircaseViewer._loadStepFile content None) w in
     showingSpinner (context w') = true
     ∧ currentlyViewingDoc (context w') = currentlyViewingDoc (context w)
     ∧ messageQueue (context w') =
         messageQueue (context w) ++ [Msg DrawLoadingScreen])
  ∧ (let w' := exec (Main.loadStepFile content None) w in
     showingSpinner (context w') = true
     ∧ currentlyViewingDoc (context w') = currentlyViewingDoc (context w)
     ∧ messageQueue (context w') =
         messageQueue (context w)
           ++ [Msg DrawLoadingScreen;
               mkMessage SetStepFileContent (Some content) None]).
Proof.
  destruct w as [[q sp doc vc prog params] fx hd gl].
  repeat split;
    run_steps; cbv -[app]; rewrite <- ?app_assoc, ?app_nil_r;
    reflexivity.
Qed.

End Workers.

(** * Further properties of the scheduler of the viewer *)

Section SchedulerInvariants.

Import StaircaseViewer.

Lemma handleMessage_spinnerParams m nf w :
  spinnerParams (context (exec (handleMessage m nf) w)) =
  spinnerParams (context w).
Proof.
  destruct m as [t d next], w as [[q sp doc [sr] prog params] fx hd gl].
  destruct next, t; try reflexivity; destruct sp, sr; reflexivity.
Qed.

Lemma whileLocalQueue_spinnerParams l : ∀ nf w,
  spinnerParams (context (exec (whileLocalQueue l nf) w)) =
  spinnerParams (context w).
Proof.
  induction l as [ | m l IH ]; intros nf w.
  - done.
  - unfold exec. rewrite whileLocalQueue_cons.
    etrans; [ apply IH | apply handleMessage_spinnerParams ].
Qed.

Lemma handleMessages_spinnerParams w :
  spinnerParams (context (exec handleMessages w)) =
  spinnerParams (context w).
Proof.
  unfold exec at 1. rewrite handleMessages_run; simpl.
  destruct (eval _ _); simpl; by rewrite whileLocalQueue_spinnerParams.
Qed.

Lemma ticks_keep_the_worker_fields_aux n w :
  showingSpinner (context (ticks n w)) = showingSpinner (context w)
  ∧ currentlyViewingDoc (context (ticks n w)) =
      currentlyViewingDoc (context w)
  ∧ spinnerParams (context (ticks n w)) = spinnerParams (context w).
Proof.
  induction n as [ | n (IH1 & IH2 & IH3) ]; [ done | ].
  rewrite ticks_S, handleMessages_showingSpinner,
    handleMessages_currentlyViewingDoc, handleMessages_spinnerParams.
  done.
Qed.

(** X1: the scheduler only reads what the worker publishes: after any
    number of invocations the spinner flag, the document handle and the
    spinner parameters are what they were. *)
Theorem ticks_keep_the_worker_fields n w :
  showingSpinner (context (ticks n w)) = showingSpinner (context w)
  ∧ currentlyViewingDoc (context (ticks n w)) =
      currentlyViewingDoc (context w)
  ∧ spinnerParams (context (ticks n w)) = spinnerParams (context w).
Proof. apply ticks_keep_the_worker_fields_aux. Qed.

Lemma flagAfter_true sp nf x :
  flagAfter sp nf x = true → nf = true ∨ requeued sp x ≠ [].
Proof.
  destruct x as [t d [ n | ]]; unfold flagAfter, requeued, selfPush; simpl.
  - intros _. right. by destruct t, sp.
  - destruct t, sp; simpl; intros H; try (by left); try (by right);
      discriminate.
Qed.

Lemma rearm_true sp l : ∀ nf,
  rearm sp nf l = true → nf = true ∨ flat_map (requeued sp) l ≠ [].
Proof.
  induction l as [ | x l IH ]; intros nf H; [ by left | ].
  change (rearm sp (flagAfter sp nf x) l = true) in H.
  destruct (IH _ H) as [ Hx | Hl ].
  - destruct (flagAfter_true _ _ _ Hx) as [ ? | Hr ]; [ by left | ].
    right. simpl. by destruct (requeued sp x).
  - right. simpl. intros Hnil. by apply app_eq_nil in Hnil as [_ ?].
Qed.

(** X3: the timer is armed only when there is something to do: whenever
    an invocation arms it, the queue it leaves behind is not empty. *)
Theorem armed_timer_finds_a_message w :
  eval handleMessages w = true →
  messageQueue (context (exec handleMessages w)) ≠ [].
Proof.
  rewrite handleMessages_eval, handleMessages_queue. intros H.
  by destruct (rearm_true _ _ _ H).
Qed.

Lemma armed_timer_finds_a_message_witness :
  let w := withContext (withQueue [Msg NextFrame] ctx0) world0 in
  eval handleMessages w = true
  ∧ messageQueue (context (exec handleMessages w)) ≠ [].
Proof.
  split; [ reflexivity | ].
  exact (armed_timer_finds_a_message
           (withContext (withQueue [Msg NextFrame] ctx0) world0) eq_refl).
Defined.

Lemma pending_app q1 q2 : pending (q1 ++ q2) = pending q1 + pending q2.
Proof. apply sum_list_with_app. Qed.

Lemma pending_length q : length q ≤ pending q.
Proof.
  induction q as [ | m q IH ]; [ done | ].
  change (S (length q) ≤ chainLength m + pending q).
  destruct m as [t d [ n | ]]; simpl; lia.
Qed.

Lemma pending_requeued sp m : pending (requeued sp m) ≤ chainLength m.
Proof.
  destruct m as [t d [ n | ]]; unfold requeued, selfPush, pending;
    destruct t, sp; simpl; lia.
Qed.

Lemma pending_flat_map sp q :
  pending (flat_map (requeued sp) q) ≤ pending q.
Proof.
  induction q as [ | m q IH ]; [ done | ].
  simpl. rewrite pending_app.
  change (pending (m :: q)) with (chainLength m + pending q).
  pose proof (pending_requeued sp m). lia.
Qed.

(** X4: the scheduler does not multiply work.  Counting every message in
    the queue together with all its successors, an invocation never
    leaves more than it found; so, without pushes from outside, the
    queue stays bounded by that count for ever. *)
Theorem ticks_never_add_pending_steps n w :
  pending (messageQueue (context (ticks n w)))
    ≤ pending (messageQueue (context w))
  ∧ length (messageQueue (context (ticks n w)))
    ≤ pending (messageQueue (context w)).
Proof.
  assert (pending (messageQueue (context (ticks n w)))
            ≤ pending (messageQueue (context w))) as H.
  { induction n as [ | n IH ]; [ done | ].
    rewrite ticks_S, handleMessages_queue.
    etrans; [ apply pending_flat_map | done ]. }
  split; [ done | ].
  etrans; [ apply pending_length | done ].
Qed.

End SchedulerInvariants.

(** * The loop in its steady state, and chains that end it *)

Section SteadyState.

Import StaircaseViewer.

Lemma framed_effects_sched l nf w :
  effects (exec (whileLocalQueue l nf) w) =
  effects w ++ effects (exec (whileLocalQueue l nf) (blank w)).
Proof.
  unfold exec. by rewrite (framed_whileLocalQueue l nf w).
Qed.

Lemma noDraw_type m : noDraw m = true → type m ≠ DrawLoadingScreen.
Proof.
  destruct m as [t d [ n | ]]; unfold noDraw; simpl;
    intros H%andb_true_iff; destruct H as [H _];
    apply negb_true_iff, bool_decide_eq_false in H; done.
Qed.

Lemma noDraw_successor m n :
  noDraw m = true → nextMessage m = Some n → noDraw n = true.
Proof.
  destruct m as [t d next]; simpl. intros H ->. unfold noDraw in *.
  simpl in H. by apply andb_true_iff in H as [_ ?].
Qed.

Lemma noDraw_requeued sp m x :
  noDraw m = true → In x (requeued sp m) → noDraw x = true.
Proof.
  intros Hm. pose proof (noDraw_type m Hm) as Ht.
  unfold requeued. rewrite in_app_iff. intros [ Hx | Hx ].
  - unfold selfPush in Hx. destruct (type m); try done; simpl in Hx;
      destruct Hx as [ <- | [] ]; done.
  - destruct (nextMessage m) as [ n | ] eqn:Hn; simpl in Hx; [ | done ].
    destruct Hx as [ <- | [] ]. by eapply noDraw_successor.
Qed.

Lemma kinds_unfold m :
  kinds m =
  type m :: match nextMessage m with Some n => kinds n | None => [] end.
Proof. by destruct m as [t d [ n | ]]. Qed.

Lemma flagAfter_noDraw sp nf x :
  noDraw x = true →
  flagAfter sp nf x =
  nf || bool_decide (type x = NextFrame)
     || match nextMessage x with Some _ => true | None => false end.
Proof.
  intros H%noDraw_type. destruct x as [t d [ n | ]]; unfold flagAfter;
    simpl in *; destruct t, nf; done.
Qed.

Lemma flagAfter_NextFrame sp nf x :
  noDraw x = true → In NextFrame (kinds x) → flagAfter sp nf x = true.
Proof.
  intros Hx Hk. rewrite flagAfter_noDraw by done.
  rewrite kinds_unfold in Hk. destruct Hk as [ Ht | Hk ].
  - rewrite Ht, bool_decide_eq_true_2 by done. by rewrite orb_true_r.
  - destruct (nextMessage x); [ by rewrite orb_true_r | done ].
Qed.

Lemma rearm_noDraw sp l : ∀ nf,
  Forall (λ x, noDraw x = true) l →
  (nf = true ∨ ∃ m, In m l ∧ In NextFrame (kinds m)) →
  rearm sp nf l = true.
Proof.
  induction l as [ | x l IH ]; intros nf Hl H.
  - destruct H as [ -> | (m & [] & _) ]. done.
  - apply Forall_cons in Hl as [Hx Hl].
    change (rearm sp (flagAfter sp nf x) l = true).
    apply IH; [ done | ].
    destruct H as [ -> | (m & [ -> | Hm ] & Hk) ].
    + left. rewrite flagAfter_noDraw by done. done.
    + left. by apply flagAfter_NextFrame.
    + right. eauto.
Qed.

Lemma requeued_NextFrame sp m :
  In NextFrame (kinds m) →
  ∃ m', In m' (requeued sp m) ∧ In NextFrame (kinds m').
Proof.
  rewrite kinds_unfold. intros [ Ht | Hk ].
  - exists (Msg NextFrame). split; [ | by left ].
    unfold requeued, selfPush. rewrite Ht. by left.
  - destruct (nextMessage m) as [ n | ] eqn:Hn; [ | done ].
    exists n. split; [ | done ].
    unfold requeued. rewrite Hn. apply in_or_app. right. by left.
Qed.

Lemma steady_step w :
  Forall (λ x, noDraw x = true) (messageQueue (context w)) →
  (∃ m, In m (messageQueue (context w)) ∧ In NextFrame (kinds m)) →
  eval handleMessages w = true
  ∧ Forall (λ x, noDraw x = true)
           (messageQueue (context (exec handleMessages w)))
  ∧ ∃ m, In m (messageQueue (context (exec handleMessages w)))
         ∧ In NextFrame (kinds m).
Proof.
  intros Hq (m & Hm & Hk). rewrite handleMessages_eval, handleMessages_queue.
  split; [ apply rearm_noDraw; eauto | ]. split.
  - apply Forall_forall. intros x Hx%list_elem_of_In.
    apply in_flat_map in Hx as (y & Hy & Hx).
    eapply noDraw_requeued; [ | done ].
    by eapply (proj1 (Forall_forall _ _) Hq), list_elem_of_In.
  - destruct (requeued_NextFrame (showingSpinner (context w)) m Hk)
      as (m' & Hm' & Hk').
    exists m'. split; [ | done ]. apply in_flat_map. eauto.
Qed.

Lemma steady_ticks n w :
  Forall (λ x, noDraw x = true) (messageQueue (context w)) →
  (∃ m, In m (messageQueue (context w)) ∧ In NextFrame (kinds m)) →
  eval handleMessages (ticks n w) = true
  ∧ ∃ m, In m (messageQueue (context (ticks (S n) w)))
         ∧ In NextFrame (kinds m).
Proof.
  intros Hq Hex.
  assert (Forall (λ x, noDraw x = true) (messageQueue (context (ticks n w)))
          ∧ ∃ m, In m (messageQueue (context (ticks n w)))
                 ∧ In NextFrame (kinds m)) as [Hn Hexn].
  { induction n as [ | n [IH1 IH2] ]; [ eauto | ].
    rewrite ticks_S.
    destruct (steady_step _ IH1 IH2) as (_ & ? & ?). eauto. }
  rewrite ticks_S.
  destruct (steady_step _ Hn Hexn) as (? & _ & ?). done.
Qed.

(** X5: the steady state.  Once the queue holds a [NextFrame], as a
    message or as a successor still to come, and no
    [DrawLoadingScreen] (neither as a message nor as a successor),
    every invocation arms the timer and leaves a [NextFrame] in the
    queue or on its way, whatever else is queued and whatever the
    spinner flag is: the loop runs for ever. *)
Theorem loop_with_a_NextFrame_never_stops n w m :
  In m (messageQueue (context w)) →
  In NextFrame (kinds m) →
  Forall (λ x, noDraw x = true) (messageQueue (context w)) →
  eval handleMessages (ticks n w) = true
  ∧ ∃ m', In m' (messageQueue (context (ticks (S n) w)))
          ∧ In NextFrame (kinds m').
Proof. intros Hm Hk Hq. apply steady_ticks; eauto. Qed.

Lemma loop_with_a_NextFrame_never_stops_witness :
  let w := withContext (withQueue [Msg ClearScreen; Msg NextFrame] ctx0)
                       world0 in
  In (Msg NextFrame) (messageQueue (context w))
  ∧ In NextFrame (kinds (Msg NextFrame))
  ∧ Forall (λ x, noDraw x = true) (messageQueue (context w))
  ∧ eval handleMessages (ticks 3 w) = true.
Proof.
  assert (In (Msg NextFrame) [Msg ClearScreen; Msg NextFrame]) as Hin
    by (right; left; reflexivity).
  assert (In NextFrame (kinds (Msg NextFrame))) as Hk
    by (left; reflexivity).
  assert (Forall (λ x, noDraw x = true) [Msg ClearScreen; Msg NextFrame])
    as Hall by (repeat constructor).
  split; [ exact Hin | ]. split; [ exact Hk | ].
  split; [ exact Hall | ].
  exact (proj1 (loop_with_a_NextFrame_never_stops 3
                  (withContext
                     (withQueue [Msg ClearScreen; Msg NextFrame] ctx0)
                     world0)
                  (Msg NextFrame) Hin Hk Hall)).
Defined.

Lemma handleMessage_InitEmptyScene m nf w :
  type m = InitEmptyScene →
  effects (exec (handleMessage m nf) w) =
  effects w ++ [InitScene; UpdateView].
Proof.
  destruct m as [t d next], w as [[q sp doc vc prog params] fx hd gl].
  simpl. intros ->. destruct next; run_world; by rewrite <- app_assoc.
Qed.

Lemma initEmptyScene_queue w :
  messageQueue (context (exec initEmptyScene w)) =
  messageQueue (context w)
    ++ [chainMsg ClearScreen
          [ClearScreen; ClearScreen; InitEmptyScene; NextFrame]].
Proof.
  destruct w as [[q sp doc vc prog params] fx hd gl].
  unfold initEmptyScene, pushChain. rewrite chainValue_cons.
  by run_world.
Qed.

(** X15: [initEmptyScene] on a running system.  Whatever the queue
    holds when the chain is pushed, the fourth invocation after the push
    initialises the scene and updates the view. *)
Theorem initEmptyScene_inits_at_the_fourth_tick w :
  let w' := exec initEmptyScene w in
  ∃ before after,
    effects (ticks 4 w') =
    effects (ticks 3 w') ++ before ++ [InitScene; UpdateView] ++ after.
Proof.
  cbn zeta. pose proof (initEmptyScene_queue w) as Hq'.
  destruct (ticks_successor 3 _ _ _ []
              (chainMsg InitEmptyScene [NextFrame]) Hq' eq_refl)
    as (a & b & H3).
  set (w3 := ticks 3 (exec initEmptyScene w)) in *.
  rewrite (ticks_S 3). fold w3.
  pose proof (handleMessages_run w3) as Hrun. cbn zeta in Hrun.
  rewrite H3 in Hrun.
  set (w0 := withContext (withQueue [] (context w3)) w3) in *.
  set (m := chainMsg InitEmptyScene [NextFrame]) in *.
  assert (∃ rest,
            effects (exec (whileLocalQueue (a ++ m :: b) false) w0) =
            effects w3
              ++ effects (exec (whileLocalQueue a false) (blank w0))
              ++ [InitScene; UpdateView] ++ rest) as (rest & Hfx).
  { unfold exec at 1. rewrite whileLocalQueue_middle.
    set (w1 := exec (whileLocalQueue a false) w0).
    set (nf1 := eval (whileLocalQueue a false) w0).
    fold (exec (whileLocalQueue b (eval (handleMessage m nf1) w1))
               (exec (handleMessage m nf1) w1)).
    rewrite (framed_effects_sched b), handleMessage_InitEmptyScene
      by done.
    unfold w1. rewrite (framed_effects_sched a).
    exists (effects
              (exec (whileLocalQueue b (eval (handleMessage m nf1) w1))
                    (blank (exec (handleMessage m nf1) w1)))).
    by rewrite <- !app_assoc. }
  unfold exec at 1. rewrite Hrun; cbn [snd].
  destruct (eval (whileLocalQueue (a ++ m :: b) false) w0).
  - change (effects (exec (emit ?e) ?v)) with (effects v ++ [e]).
    rewrite Hfx.
    exists (effects (exec (whileLocalQueue a false) (blank w0))),
           (rest ++ [SetTimeout FPS60]).
    by rewrite <- !app_assoc.
  - rewrite Hfx.
    by exists (effects (exec (whileLocalQueue a false) (blank w0))),
              rest.
Qed.

(** X18: [initEmptyScene] leaves the render loop running.  If the queue
    holds no [DrawLoadingScreen] when the chain is pushed, every
    invocation from the push on arms the timer: first because a step of
    the chain has a successor, then because of the [NextFrame] the chain
    ends with. *)
Theorem initEmptyScene_keeps_the_loop_running w n :
  Forall (λ x, noDraw x = true) (messageQueue (context w)) →
  eval handleMessages (ticks n (exec initEmptyScene w)) = true.
Proof.
  intros Hq. pose proof (initEmptyScene_queue w) as Hq'.
  apply steady_ticks.
  - rewrite Hq'. apply Forall_app. split; [ done | ].
    by repeat constructor.
  - eexists. split; [ rewrite Hq'; apply in_or_app; right; by left | ].
    by do 4 right; left.
Qed.

Lemma initEmptyScene_keeps_the_loop_running_witness :
  let w := withContext
             (withQueue [Msg InitStepFile;
                         chainMsg ClearScreen [ClearScreen]] ctx0)
             world0 in
  Forall (λ x, noDraw x = true) (messageQueue (context w))
  ∧ eval handleMessages (ticks 7 (exec initEmptyScene w)) = true.
Proof.
  assert (Forall (λ x, noDraw x = true)
            [Msg InitStepFile; chainMsg ClearScreen [ClearScreen]])
    as Hall by (repeat constructor).
  split; [ exact Hall | ].
  exact (initEmptyScene_keeps_the_loop_running
           (withContext
              (withQueue [Msg InitStepFile;
                          chainMsg ClearScreen [ClearScreen]] ctx0)
              world0) 7 Hall).
Defined.

Lemma steps_kinds ts : ∀ t, type <$> steps t ts = t :: ts.
Proof.
  induction ts as [ | t' ts IH ]; intros t; [ done | ].
  change (type (chainMsg t (t' :: ts)) :: (type <$> steps t' ts)
          = t :: t' :: ts).
  by rewrite IH.
Qed.

Lemma quiet_tick t ts w :
  quietKind t = true →
  messageQueue (context w) = [chainMsg t ts] →
  messageQueue (context (exec handleMessages w)) =
    match ts with [] => [] | t' :: ts' => [chainMsg t' ts'] end
  ∧ handled (exec handleMessages w) = handled w ++ [chainMsg t ts]
  ∧ eval handleMessages w =
      match ts with [] => false | _ :: _ => true end.
Proof.
  intros Ht Hq.
  rewrite handleMessages_queue, handleMessages_handled,
    handleMessages_eval, Hq.
  destruct ts as [ | t' ts' ]; destruct t; try discriminate Ht;
    repeat split; reflexivity.
Qed.

(** X6: a chain of kinds that push nothing themselves (anything but
    [NextFrame] and [DrawLoadingScreen]), alone in the queue, is handled
    completely and in order by exactly as many invocations as it has
    steps, one step each; every invocation but the last arms the timer,
    the last one does not and leaves the queue empty, so the loop stops
    by itself. *)
Theorem quiet_chain_runs_to_completion_and_stops ts : ∀ t w,
  forallb quietKind (t :: ts) = true →
  messageQueue (context w) = [chainMsg t ts] →
  handled (ticks (S (length ts)) w) = handled w ++ steps t ts
  ∧ type <$> steps t ts = t :: ts
  ∧ messageQueue (context (ticks (S (length ts)) w)) = []
  ∧ Forall (λ k, eval handleMessages (ticks k w) = true)
           (seq 0 (length ts))
  ∧ eval handleMessages (ticks (length ts) w) = false.
Proof.
  induction ts as [ | t' ts IH ]; intros t w Hquiet Hq.
  - apply andb_true_iff in Hquiet as [Ht _].
    destruct (quiet_tick t [] w Ht Hq) as (H1 & H2 & H3).
    repeat split; first [ done | apply Forall_nil_2 ].
  - apply andb_true_iff in Hquiet as [Ht Hquiet].
    destruct (quiet_tick t (t' :: ts) w Ht Hq) as (H1 & H2 & H3).
    destruct (IH t' (exec handleMessages w) Hquiet H1)
      as (I1 & I2 & I3 & I4 & I5).
    change (ticks (S (length (t' :: ts))) w)
      with (ticks (S (length ts)) (exec handleMessages w)).
    change (ticks (length (t' :: ts)) w)
      with (ticks (length ts) (exec handleMessages w)).
    repeat split.
    + rewrite I1, H2, <- app_assoc. done.
    + apply steps_kinds.
    + done.
    + change (seq 0 (length (t' :: ts)))
        with (0 :: seq 1 (length ts)).
      apply Forall_cons; split; [ exact H3 | ].
      rewrite <- fmap_S_seq. apply Forall_fmap.
      eapply Forall_impl; [ exact I4 | ]. by intros k Hk.
    + done.
Qed.

Lemma quiet_chain_runs_to_completion_and_stops_witness :
  let w := withContext
             (withQueue [chainMsg ClearScreen [InitEmptyScene]] ctx0)
             world0 in
  forallb quietKind [ClearScreen; InitEmptyScene] = true
  ∧ messageQueue (context w) = [chainMsg ClearScreen [InitEmptyScene]]
  ∧ messageQueue (context (ticks 2 w)) = [].
Proof.
  split; [ reflexivity | ]. split; [ reflexivity | ].
  exact (proj1 (proj2 (proj2
           (quiet_chain_runs_to_completion_and_stops [InitEmptyScene]
              ClearScreen
              (withContext
                 (withQueue [chainMsg ClearScreen [InitEmptyScene]] ctx0)
                 world0)
              eq_refl eq_refl)))).
Defined.

End SteadyState.

(** * The spinner *)

Section Spinner.

Import StaircaseViewer.





Lemma idle_ticks n v : messageQueue (context v) = [] → ticks n v = v.
Proof.
  intros Hv. induction n as [ | n IH ]; [ done | ].
  rewrite ticks_S, IH. unfold exec. rewrite handleMessages_run, Hv.
  destruct v as [[q sp doc vc prog params] fx hd gl].
  simpl in Hv. by subst q.
Qed.

(** X8: the end of the animation.  When the worker has cleared the
    spinner flag, the invocation that handles the [DrawLoadingScreen]
    left in the queue draws one last frame, flags a rebuild of the
    program, does not arm the timer (its calls end with the draw) and
    leaves the queue empty; after it the loop is idle until something is
    pushed from outside. *)
Theorem spinner_stops_after_one_last_frame n w d :
  showingSpinner (context w) = false →
  messageQueue (context w) = [mkMessage DrawLoadingScreen d None] →
  let w' := exec handleMessages w in
  eval handleMessages w = false
  ∧ messageQueue (context w') = []
  ∧ shouldRender (viewController (context w')) = true
  ∧ effects w' =
      effects w
        ++ ClearCanvas Platinum
           :: (if shouldRender (viewController (context w))
               then [CreateShaderProgram vertexShaderSource
                       fragmentShaderSource]
               else [])
        ++ [DrawLoadingScreenCall (shaderProgram (context w'))
              (spinnerParams (context w))]
  ∧ ticks n w' = w'.
Proof.
  destruct w as [[q sp doc [sr] prog params] fx hd gl]; simpl.
  intros -> ->.
  destruct sr; run_world; rewrite <- ?app_assoc;
    repeat split; by apply idle_ticks.
Qed.

Lemma spinner_stops_after_one_last_frame_witness :
  let w := withContext (withQueue [Msg DrawLoadingScreen] ctx0) world0 in
  showingSpinner (context w) = false
  ∧ messageQueue (context w) = [mkMessage DrawLoadingScreen None None]
  ∧ eval handleMessages w = false.
Proof.
  split; [ reflexivity | ]. split; [ reflexivity | ].
  exact (proj1 (spinner_stops_after_one_last_frame 0
                  (withContext (withQueue [Msg DrawLoadingScreen] ctx0)
                               world0)
                  None eq_refl eq_refl)).
Defined.

End Spinner.

(** * Which document gets bound *)

Section Binding.

Import StaircaseViewer.

Lemma framed_effects {A} (c : M A) w :
  framed c → effects (exec c w) = effects w ++ effects (exec c (blank w)).
Proof. intros Hc. unfold exec. by rewrite (Hc w). Qed.

Lemma framed_currentlyViewingDoc_blank w :
  currentlyViewingDoc (context (blank w)) = currentlyViewingDoc (context w).
Proof. done. Qed.

Lemma handleMessage_binds m nf w :
  forallb (bindsDoc (currentlyViewingDoc (context w)))
          (effects (exec (handleMessage m nf) (blank w))) = true.
Proof.
  destruct m as [t d next], w as [[q sp doc [sr] prog params] fx hd gl].
  destruct next, t; try reflexivity;
    try (destruct sp, sr; reflexivity);
    run_world; by rewrite bool_decide_eq_true_2.
Qed.

Lemma whileLocalQueue_binds l : ∀ nf w,
  forallb (bindsDoc (currentlyViewingDoc (context w)))
          (effects (exec (whileLocalQueue l nf) (blank w))) = true.
Proof.
  induction l as [ | m l IH ]; intros nf w; [ done | ].
  unfold exec. rewrite whileLocalQueue_cons.
  fold (exec (whileLocalQueue l (eval (handleMessage m nf) (blank w)))
             (exec (handleMessage m nf) (blank w))).
  rewrite framed_effects by apply framed_whileLocalQueue.
  rewrite forallb_app, handleMessage_binds; simpl.
  change (currentlyViewingDoc (context w))
    with (currentlyViewingDoc (context (blank w))).
  rewrite <- (handleMessage_currentlyViewingDoc m nf (blank w)).
  apply IH.
Qed.

Lemma handleMessages_effects w :
  effects (exec handleMessages w) =
  effects w
    ++ effects (exec (whileLocalQueue (messageQueue (context w)) false)
                     (blank w))
    ++ (if eval handleMessages w then [SetTimeout FPS60] else []).
Proof.
  unfold exec at 1. rewrite handleMessages_run; cbn zeta; cbn [snd].
  rewrite handleMessages_eval, whileLocalQueue_eval.
  cbn [context withContext showingSpinner withQueue].
  pose proof (framed_effects
                (whileLocalQueue (messageQueue (context w)) false)
                (withContext (withQueue [] (context w)) w)
                (framed_whileLocalQueue _ _)) as H.
  change (blank (withContext (withQueue [] (context w)) w))
    with (blank w) in H.
  change (effects (withContext (withQueue [] (context w)) w))
    with (effects w) in H.
  destruct (rearm _ false _).
  - change (effects (exec (emit ?e) ?v)) with (effects v ++ [e]).
    by rewrite H, <- app_assoc.
  - by rewrite H, app_nil_r.
Qed.

Lemma ticks_effects n w :
  ∃ new, effects (ticks n w) = effects w ++ new
         ∧ forallb (bindsDoc (currentlyViewingDoc (context w))) new = true.
Proof.
  induction n as [ | n (new & Hn & Hb) ].
  - exists []. by rewrite app_nil_r.
  - rewrite ticks_S, handleMessages_effects, Hn.
    eexists (new ++ _ ++ _). split; [ by rewrite <- app_assoc | ].
    rewrite !forallb_app, Hb.
    destruct (ticks_keep_the_worker_fields_aux n w) as (_ & <- & _).
    rewrite whileLocalQueue_binds. by destruct (eval _ _).
Qed.

Lemma ticks_bind_only_the_current_document_aux n w :
  forallb (bindsDoc (currentlyViewingDoc (context w)))
          (newEffects w (ticks n w)) = true.
Proof.
  destruct (ticks_effects n w) as (new & Hn & Hb).
  unfold newEffects. rewrite Hn, drop_app_length. done.
Qed.

(** X9: the trace only grows, and every [initStepFile] call made by any
    number of invocations binds the document handle the context held
    when they started: the scheduler never binds anything else. *)
Theorem ticks_bind_only_the_current_document n w :
  effects (ticks n w) = effects w ++ newEffects w (ticks n w)
  ∧ forallb (bindsDoc (currentlyViewingDoc (context w)))
            (newEffects w (ticks n w)) = true.
Proof.
  destruct (ticks_effects n w) as (new & Hn & Hb).
  unfold newEffects. rewrite Hn, drop_app_length. done.
Qed.

Lemma handleMessage_InitStepFile m nf w :
  type m = InitStepFile →
  effects (exec (handleMessage m nf) w) =
  effects w ++ [InitStepFileCall (currentlyViewingDoc (context w))].
Proof.
  destruct m as [t d next], w as [[q sp doc vc prog params] fx hd gl].
  simpl. intros ->. by destruct next.
Qed.

Lemma handleMessages_binds_queued_InitStepFile w m :
  In m (messageQueue (context w)) →
  type m = InitStepFile →
  In (InitStepFileCall (currentlyViewingDoc (context w)))
     (newEffects w (exec handleMessages w)).
Proof.
  intros Hm Ht. apply in_split in Hm as (pre & post & Hq).
  unfold newEffects. rewrite handleMessages_effects, drop_app_length, Hq.
  apply in_or_app. left.
  unfold exec at 1. rewrite whileLocalQueue_middle.
  set (w1 := exec (whileLocalQueue pre false) (blank w)).
  set (nf1 := eval (whileLocalQueue pre false) (blank w)).
  fold (exec (whileLocalQueue post (eval (handleMessage m nf1) w1))
             (exec (handleMessage m nf1) w1)).
  rewrite framed_effects by apply framed_whileLocalQueue.
  rewrite handleMessage_InitStepFile by done.
  apply in_or_app. left. apply in_or_app. right. left.
  unfold w1. by rewrite whileLocalQueue_currentlyViewingDoc.
Qed.

Lemma onStepFileRead_loaded aDoc w :
  let w' := exec (onStepFileRead (Some aDoc)) w in
  messageQueue (context w') =
    messageQueue (context w)
      ++ [chainMsg ClearScreen
            [ClearScreen; ClearScreen; InitStepFile; NextFrame]]
  ∧ currentlyViewingDoc (context w') = Some aDoc
  ∧ showingSpinner (context w') = false.
Proof.
  destruct w as [[q sp doc vc prog params] fx hd gl].
  run_steps. rewrite chainValue_cons. cbv -[app]. done.
Qed.

(** X10: worker and scheduler together.  After the completion callback
    of a successful parse, whatever else the queue holds, the fourth
    invocation makes the [initStepFile] call for the document that was
    just loaded, and no invocation ever binds another one. *)
Theorem loaded_document_is_bound_by_the_fourth_tick aDoc w n :
  let w' := exec (onStepFileRead (Some aDoc)) w in
  In (InitStepFileCall (Some aDoc)) (newEffects (ticks 3 w') (ticks 4 w'))
  ∧ forallb (bindsDoc (Some aDoc)) (newEffects w' (ticks n w')) = true.
Proof.
  cbn zeta.
  destruct (onStepFileRead_loaded aDoc w) as (Hq & Hdoc & _).
  split.
  - destruct (ticks_successor 3 _ _ _ [] (chainMsg InitStepFile [NextFrame])
                Hq eq_refl) as (a & b & H3).
    rewrite (ticks_S 3).
    destruct (ticks_keep_the_worker_fields_aux 3
                (exec (onStepFileRead (Some aDoc)) w)) as (_ & Hd & _).
    rewrite Hdoc in Hd.
    assert (In (chainMsg InitStepFile [NextFrame])
               (messageQueue
                  (context (ticks 3 (exec (onStepFileRead (Some aDoc)) w)))))
      as Hin by (rewrite H3; apply in_or_app; right; by left).
    pose proof (handleMessages_binds_queued_InitStepFile _ _ Hin eq_refl)
      as H.
    by rewrite Hd in H.
  - rewrite <- Hdoc. apply ticks_bind_only_the_current_document_aux.
Qed.

End Binding.

(** * The idle loop *)

Section Idle.

Import StaircaseViewer.

Lemma handleMessage_calls x nf w :
  effects (exec (handleMessage x nf) (blank w)) = [] →
  type x = NextFrame.
Proof.
  destruct x as [t d next], w as [[q sp doc [sr] prog params] fx hd gl].
  destruct next, t; try reflexivity; try discriminate;
    destruct sp, sr; discriminate.
Qed.

Lemma flagAfter_NextFrame_kind sp nf x :
  type x = NextFrame → flagAfter sp nf x = true.
Proof.
  destruct x as [t d [ n | ]]; simpl; intros ->; reflexivity.
Qed.

Lemma whileLocalQueue_calls l : ∀ nf w,
  nf = true ∨ l ≠ [] →
  effects (exec (whileLocalQueue l nf) (blank w)) ≠ []
  ∨ rearm (showingSpinner (context w)) nf l = true.
Proof.
  induction l as [ | x l IH ]; intros nf w H.
  - right. by destruct H.
  - unfold exec. rewrite whileLocalQueue_cons.
    set (w1 := exec (handleMessage x nf) (blank w)).
    set (nf1 := eval (handleMessage x nf) (blank w)).
    fold (exec (whileLocalQueue l nf1) w1).
    rewrite (framed_effects (whileLocalQueue l nf1) w1)
      by apply framed_whileLocalQueue.
    destruct (effects w1) as [ | e fx ] eqn:Hx.
    + pose proof (handleMessage_calls x nf w Hx) as Ht.
      assert (nf1 = true) as Hnf1.
      { unfold nf1. rewrite handleMessage_eval.
        by apply flagAfter_NextFrame_kind. }
      destruct (IH nf1 w1 (or_introl Hnf1)) as [ Hfx | Hr ].
      * by left.
      * right. change (rearm (showingSpinner (context w))
                         (flagAfter (showingSpinner (context w)) nf x) l
                       = true).
        unfold w1 in Hr. rewrite handleMessage_showingSpinner in Hr.
        rewrite Hnf1 in Hr.
        by rewrite flagAfter_NextFrame_kind.
    + by left.
Qed.

(** X2: an invocation on an empty queue is a no-op that does not arm the
    timer.  On a non-empty queue every invocation makes at least one
    call to a collaborator (a render call, a log line or the timer
    request), so the empty queue is the only case in which an
    invocation leaves the world as it was. *)
Theorem handleMessages_is_idle_exactly_on_the_empty_queue w :
  (effects (exec handleMessages w) = effects w
   ↔ messageQueue (context w) = [])
  ∧ (handleMessages w = (false, w) ↔ messageQueue (context w) = []).
Proof.
  assert (messageQueue (context w) = [] → handleMessages w = (false, w))
    as Hidle.
  { intros H. rewrite handleMessages_run, H.
    destruct w as [[q sp doc vc prog params] fx hd gl].
    simpl in H. by subst q. }
  assert (effects (exec handleMessages w) = effects w →
          messageQueue (context w) = []) as Hcalls.
  { rewrite handleMessages_effects, handleMessages_eval. intros H.
    rewrite <- (app_nil_r (effects w)) in H at 2.
    apply app_inv_head, app_eq_nil in H as [Hfx Ht].
    destruct (messageQueue (context w)) as [ | x l ] eqn:Hq; [ done | ].
    destruct (whileLocalQueue_calls (x :: l) false w) as [ Hc | Hr ];
      [ by right | done | ].
    by rewrite Hr in Ht. }
  split; split.
  - exact Hcalls.
  - intros H. unfold exec. by rewrite (Hidle H).
  - intros H. apply Hcalls. unfold exec. by rewrite H.
  - exact Hidle.
Qed.

End Idle.

(** * The scheduler of main.cpp *)

Section MainScheduler.

Lemma main_handleMessage_run m nf w :
  payloadOk m = true →
  Main.handleMessage m nf w =
  Some (flagAfter (showingSpinner (context w)) nf m,
        {| context :=
             withQueue (messageQueue (context w)
                          ++ requeued (showingSpinner (context w)) m)
                       (context w);
           effects := effects w ++ mainCalls (context w) m;
           handled := handled w ++ [m];
           glPrograms := glPrograms w |}).
Proof.
  destruct m as [t d next], w as [[q sp doc vc prog params] fx hd gl].
  unfold flagAfter, requeued, selfPush, mainCalls, payloadOk.
  intros Hok.
  destruct next, t, d; try discriminate Hok; try destruct sp; run_main;
    rewrite <- ?app_assoc, ?app_nil_r; reflexivity.
Qed.

Lemma main_handleMessage_undefined m nf w :
  payloadOk m = false → Main.handleMessage m nf w = None.
Proof.
  destruct m as [t d next]. unfold payloadOk.
  destruct t, d; try discriminate; reflexivity.
Qed.

Lemma main_whileLocalQueue_run l : ∀ nf w,
  forallb payloadOk l = true →
  Main.whileLocalQueue l nf w =
  Some (rearm (showingSpinner (context w)) nf l,
        {| context :=
             withQueue
               (messageQueue (context w)
                  ++ flat_map (requeued (showingSpinner (context w))) l)
               (context w);
           effects := effects w ++ flat_map (mainCalls (context w)) l;
           handled := handled w ++ l;
           glPrograms := glPrograms w |}).
Proof.
  induction l as [ | m l IH ]; intros nf w Hok.
  - destruct w as [[q sp doc vc prog params] fx hd gl].
    unfold withQueue; cbn. by rewrite !app_nil_r.
  - cbn [forallb] in Hok. apply andb_prop in Hok as [Hm Hl].
    cbn [Main.whileLocalQueue]. unfold andThen at 1.
    rewrite (main_handleMessage_run _ _ _ Hm), (IH _ _ Hl).
    destruct w as [[q sp doc vc prog params] fx hd gl].
    unfold withQueue; cbn. by rewrite <- !app_assoc.
Qed.

Lemma main_whileLocalQueue_undefined l : ∀ nf w,
  forallb payloadOk l = false → Main.whileLocalQueue l nf w = None.
Proof.
  induction l as [ | m l IH ]; intros nf w Hok; [ done | ].
  cbn [forallb] in Hok. cbn [Main.whileLocalQueue]. unfold andThen at 1.
  destruct (payloadOk m) eqn:Hm.
  - rewrite (main_handleMessage_run _ _ _ Hm). by apply IH.
  - by rewrite (main_handleMessage_undefined _ _ _ Hm).
Qed.

Lemma main_handleMessages_closed w :
  Main.handleMessages w =
  if forallb payloadOk (messageQueue (context w))
  then
    Some
      (rearm (showingSpinner (context w)) false (messageQueue (context w)),
       {| context :=
            withQueue (flat_map (requeued (showingSpinner (context w)))
                                (messageQueue (context w))) (context w);
          effects :=
            effects w
              ++ flat_map (mainCalls (context w)) (messageQueue (context w))
              ++ (if rearm (showingSpinner (context w)) false
                        (messageQueue (context w))
                  then [SetTimeout 16] else []);
          handled := handled w ++ messageQueue (context w);
          glPrograms := glPrograms w |})
  else None.
Proof.
  destruct w as [[q sp doc vc prog params] fx hd gl].
  unfold Main.handleMessages, andThen at 1, defined at 1.
  rewrite drainMessageQueue_run. unfold andThen at 1.
  cbn [context messageQueue showingSpinner].
  destruct (forallb payloadOk q) eqn:Hok.
  - rewrite (main_whileLocalQueue_run _ _ _ Hok).
    unfold defined, withQueue, mainCalls; cbn.
    destruct (rearm sp false q); run_main;
      by rewrite <- ?app_assoc, ?app_nil_r.
  - by rewrite (main_whileLocalQueue_undefined _ _ _ Hok).
Qed.

(** X11: a complete reading of [handleMessages] of main.cpp.  A
    [SetStepFileContent] message without payload anywhere in the drained
    queue makes the invocation undefined: its case dereferences the null
    string pointer.  On every other queue the invocation changes nothing
    in the context but the queue and builds no shader program; it
    handles exactly the drained messages; the calls it makes are, in
    queue order, those of [mainCalls] for each message (the page gets
    the payload up to its first NUL byte), which depend on the message
    and on context fields this scheduler never writes, so no message
    influences how another one is handled; the queue it leaves holds the
    re-pushed messages and the timer is set exactly when the final flag
    is up. *)
Theorem main_handleMessages_reads_as_a_map_over_the_queue w :
  let sp := showingSpinner (context w) in
  let q := messageQueue (context w) in
  Main.handleMessages w =
  if forallb payloadOk q
  then
    Some
      (rearm sp false q,
       {| context := withQueue (flat_map (requeued sp) q) (context w);
          effects :=
            effects w ++ flat_map (mainCalls (context w)) q
              ++ (if rearm sp false q then [SetTimeout 16] else []);
          handled := handled w ++ q;
          glPrograms := glPrograms w |})
  else None.
Proof. apply main_handleMessages_closed. Qed.

Lemma payloadOkDeep_payloadOk m :
  payloadOkDeep m = true → payloadOk m = true.
Proof.
  destruct m as [t d [ n | ]]; cbn [payloadOkDeep]; [ | done ].
  intros [H _]%andb_prop. by destruct t, d.
Qed.

Lemma payloadOkDeep_requeued sp m :
  payloadOkDeep m = true →
  forallb payloadOkDeep (requeued sp m) = true.
Proof.
  destruct m as [t d [ n | ]]; cbn [payloadOkDeep]; intros H.
  - apply andb_prop in H as [_ H].
    unfold requeued, selfPush; cbn.
    destruct t; try destruct sp; cbn; by rewrite ?H.
  - unfold requeued, selfPush; cbn. by destruct t; try destruct sp.
Qed.

Lemma payloadOkDeep_queue l :
  forallb payloadOkDeep l = true → forallb payloadOk l = true.
Proof.
  induction l as [ | m l IH ]; [ done | ]. cbn [forallb].
  intros [Hm Hl]%andb_prop.
  by rewrite (payloadOkDeep_payloadOk _ Hm), (IH Hl).
Qed.

Lemma payloadOkDeep_flat_map sp l :
  forallb payloadOkDeep l = true →
  forallb payloadOkDeep (flat_map (requeued sp) l) = true.
Proof.
  induction l as [ | m l IH ]; [ done | ]. cbn [forallb flat_map].
  intros [Hm Hl]%andb_prop.
  by rewrite forallb_app, (payloadOkDeep_requeued _ _ Hm), (IH Hl).
Qed.

End MainScheduler.

(** * The two schedulers side by side *)

Section TwoSchedulers.

Import StaircaseViewer.

Lemma mainTicks_S n : ∀ w,
  mainTicks (S n) w =
  match mainTicks n w with
  | Some w' =>
      match Main.handleMessages w' with
      | Some (_, w'') => Some w''
      | None => None
      end
  | None => None
  end.
Proof.
  induction n as [ | n IH ]; intros w.
  - cbn. by destruct (Main.handleMessages w) as [ [? ?] | ].
  - change (mainTicks (S (S n)) w)
      with (match Main.handleMessages w with
            | Some (_, w') => mainTicks (S n) w'
            | None => None
            end).
    change (mainTicks (S n) w)
      with (match Main.handleMessages w with
            | Some (_, w') => mainTicks n w'
            | None => None
            end).
    destruct (Main.handleMessages w) as [ [? w'] | ]; [ | done ].
    apply IH.
Qed.

Lemma schedulers_agree_from n : ∀ w1 w2,
  messageQueue (context w1) = messageQueue (context w2) →
  showingSpinner (context w1) = showingSpinner (context w2) →
  forallb payloadOkDeep (messageQueue (context w1)) = true →
  ∃ wm hs,
    mainTicks n w1 = Some wm
    ∧ messageQueue (context wm) = messageQueue (context (ticks n w2))
    ∧ showingSpinner (context wm) = showingSpinner (context (ticks n w2))
    ∧ currentlyViewingDoc (context wm) = currentlyViewingDoc (context w1)
    ∧ forallb payloadOkDeep (messageQueue (context wm)) = true
    ∧ handled wm = handled w1 ++ hs
    ∧ handled (ticks n w2) = handled w2 ++ hs.
Proof.
  induction n as [ | n IH ]; intros w1 w2 Hq Hs Hok.
  - exists w1, []. by rewrite !app_nil_r.
  - change (ticks (S n) w2) with (ticks n (exec handleMessages w2)).
    cbn [mainTicks]. rewrite main_handleMessages_closed.
    rewrite (payloadOkDeep_queue _ Hok).
    match goal with
    | |- context [ mainTicks n ?v ] => set (w1' := v)
    end.
    destruct (IH w1' (exec handleMessages w2))
      as (wm & hs & Hm & Hqm & Hsm & Hdm & Hokm & Hh1 & Hh2).
    + rewrite handleMessages_queue, <- Hq, <- Hs.
      by destruct w1 as [[q sp doc vc prog params] fx hd gl].
    + rewrite handleMessages_showingSpinner, <- Hs.
      by destruct w1 as [[q sp doc vc prog params] fx hd gl].
    + change (messageQueue (context w1'))
        with (flat_map (requeued (showingSpinner (context w1)))
                       (messageQueue (context w1))).
      by apply payloadOkDeep_flat_map.
    + exists wm, (messageQueue (context w1) ++ hs).
      rewrite Hh2, handleMessages_handled, <- Hq, <- !app_assoc.
      destruct w1 as [[q sp doc vc prog params] fx hd gl].
      repeat split; try done.
      rewrite Hh1. unfold w1'; cbn. by rewrite <- app_assoc.
Qed.

(** X12: the schedulers of the two translation units differ only in the
    calls they make and in render state, as long as every queued
    [SetStepFileContent] message, successors included, carries its
    payload.  Started on the same such world and run for any number of
    invocations, the scheduler of main.cpp stays within defined
    behaviour and the two handle the same messages, leave the same
    queue and arm the timer on the same invocations. *)
Theorem both_schedulers_queue_and_arm_alike n w :
  forallb payloadOkDeep (messageQueue (context w)) = true →
  ∃ wm,
    mainTicks n w = Some wm
    ∧ messageQueue (context wm) = messageQueue (context (ticks n w))
    ∧ handled wm = handled (ticks n w)
    ∧ fst <$> Main.handleMessages wm =
        Some (eval handleMessages (ticks n w)).
Proof.
  intros Hok.
  destruct (schedulers_agree_from n w w eq_refl eq_refl Hok)
    as (wm & hs & Hm & Hq & Hs & _ & Hokm & Hh1 & Hh2).
  exists wm. repeat split; [ done | done | congruence | ].
  rewrite main_handleMessages_closed, (payloadOkDeep_queue _ Hokm).
  cbn [fmap option_fmap option_map fst].
  by rewrite handleMessages_eval, Hq, Hs.
Qed.

Lemma both_schedulers_queue_and_arm_alike_witness :
  let w := withContext
             (withQueue [mkMessage SetStepFileContent (Some "ISO-10303-21;")
                           (Some (Msg DrawLoadingScreen));
                         chainMsg ClearScreen [InitDemoScene; NextFrame]]
                        ctx0)
             world0 in
  forallb payloadOkDeep (messageQueue (context w)) = true
  ∧ ∃ wm,
      mainTicks 3 w = Some wm
      ∧ messageQueue (context wm) = messageQueue (context (ticks 3 w))
      ∧ handled wm = handled (ticks 3 w)
      ∧ fst <$> Main.handleMessages wm =
          Some (eval handleMessages (ticks 3 w)).
Proof.
  split; [ reflexivity | ].
  exact (both_schedulers_queue_and_arm_alike 3
           (withContext
              (withQueue
                 [mkMessage SetStepFileContent (Some "ISO-10303-21;")
                    (Some (Msg DrawLoadingScreen));
                  chainMsg ClearScreen [InitDemoScene; NextFrame]]
                 ctx0)
              world0) eq_refl).
Defined.

Lemma main_onStepFileRead_loaded aDoc w :
  let w' := exec (Main.onStepFileRead (Some aDoc)) w in
  messageQueue (context w') =
    messageQueue (context w)
      ++ [chainMsg ClearScreen
            [ClearScreen; ClearScreen; InitDemoScene; NextFrame]]
  ∧ currentlyViewingDoc (context w') = Some aDoc.
Proof.
  destruct w as [[q sp doc vc prog params] fx hd gl].
  run_steps. rewrite chainValue_cons. cbv -[app]. done.
Qed.

(** X13: worker and scheduler of main.cpp together.  After the
    completion callback of a successful parse, on a queue whose
    [SetStepFileContent] messages carry their payload, the next four
    invocations stay within defined behaviour and the fourth one
    initialises the demo scene and, right after it, binds the document
    that was just loaded. *)
Theorem main_loaded_document_is_bound_by_the_fourth_tick aDoc w :
  forallb payloadOkDeep (messageQueue (context w)) = true →
  let w' := exec (Main.onStepFileRead (Some aDoc)) w in
  ∃ w3 w4 before after,
    mainTicks 3 w' = Some w3
    ∧ mainTicks 4 w' = Some w4
    ∧ effects w4 =
        effects w3
          ++ before
          ++ [InitDemoSceneCall; InitStepFileCall (Some aDoc)]
          ++ after.
Proof.
  intros Hok. cbn zeta.
  destruct (main_onStepFileRead_loaded aDoc w) as (Hq & Hdoc).
  set (w' := exec (Main.onStepFileRead (Some aDoc)) w) in *.
  assert (forallb payloadOkDeep (messageQueue (context w')) = true)
    as Hok'.
  { rewrite Hq, forallb_app, Hok. reflexivity. }
  destruct (schedulers_agree_from 3 w' w' eq_refl eq_refl Hok')
    as (w3 & hs & Hm3 & Hq3 & _ & Hd3 & Hok3 & _).
  destruct (ticks_successor 3 _ _ _ [] (chainMsg InitDemoScene [NextFrame])
              Hq eq_refl) as (a & b & H3).
  rewrite <- Hq3 in H3. rewrite Hdoc in Hd3.
  pose proof (main_handleMessages_closed w3) as Hrun.
  rewrite (payloadOkDeep_queue _ Hok3) in Hrun.
  rewrite (mainTicks_S 3), Hm3, Hrun.
  eexists _, _,
    (flat_map (mainCalls (context w3)) a),
    (flat_map (mainCalls (context w3)) b
       ++ (if rearm (showingSpinner (context w3)) false
                 (messageQueue (context w3))
           then [SetTimeout 16] else [])).
  split; [ reflexivity | ]. split; [ reflexivity | ].
  cbn [effects]. rewrite H3 at 1. rewrite flat_map_app; cbn [flat_map].
  unfold mainCalls at 2; cbn [type chainMsg]. rewrite Hd3.
  by rewrite <- !app_assoc.
Qed.

Lemma main_loaded_document_is_bound_by_the_fourth_tick_witness :
  let w := withContext
             (withQueue [mkMessage SetStepFileContent (Some "ISO-10303-21;")
                           None;
                         Msg NextFrame] ctx0)
             world0 in
  forallb payloadOkDeep (messageQueue (context w)) = true
  ∧ ∃ w3 w4 before after,
      mainTicks 3 (exec (Main.onStepFileRead (Some 7)) w) = Some w3
      ∧ mainTicks 4 (exec (Main.onStepFileRead (Some 7)) w) = Some w4
      ∧ effects w4 =
          effects w3
            ++ before
            ++ [InitDemoSceneCall; InitStepFileCall (Some 7)]
            ++ after.
Proof.
  split; [ reflexivity | ].
  exact (main_loaded_document_is_bound_by_the_fourth_tick 7
           (withContext
              (withQueue
                 [mkMessage SetStepFileContent (Some "ISO-10303-21;") None;
                  Msg NextFrame] ctx0)
              world0) eq_refl).
Defined.

End TwoSchedulers.

(** * Chains built one after another *)

Section Builder.

Lemma deref_app fuel : ∀ h h' a m,
  deref fuel h a = Some m → deref fuel (h ++ h') a = Some m.
Proof.
  induction fuel as [ | fuel IH ]; intros h h' a m; [ done | ].
  simpl. destruct (h !! a) as [ n | ] eqn:Hn; [ | done ].
  rewrite (lookup_app_l_Some _ _ _ _ Hn); simpl.
  destruct (nnext n) as [ b | ]; [ | done ].
  destruct (deref fuel h b) as [ m' | ] eqn:Hm; [ | done ].
  by rewrite (IH _ h' _ _ Hm).
Qed.

(** X14: chains do not share nodes.  Built on a store that already
    holds other chains, [chain] leaves every node of that store as it
    was and adds one node per kind behind them; the new chain is walked
    through the new nodes only and reads back as the kinds given, and
    every message value that could be read from the old store is still
    read unchanged from the new one. *)
Theorem chain_leaves_earlier_chains_alone h t ts fuel a :
  let b := chainFrom h (t :: ts) in
  take (length h) (store b) = h
  ∧ length (store b) = length h + length (t :: ts)
  ∧ head b = Some (length h)
  ∧ walk (length (t :: ts)) (store b) (length h) =
      Some (seq (length h) (length (t :: ts)))
  ∧ deref (length (t :: ts)) (store b) (length h) = Some (chainMsg t ts)
  ∧ (deref fuel h a = None ∨ deref fuel (store b) a = deref fuel h a).
Proof.
  cbn zeta. rewrite chainFrom_spec. cbn [store head].
  repeat split.
  - by rewrite take_app_length.
  - by rewrite length_app, length_linked.
  - by apply walk_linked.
  - by apply deref_linked.
  - destruct (deref fuel h a) as [ m | ] eqn:Hm; [ right | by left ].
    by apply deref_app.
Qed.

End Builder.

(** * The workers *)

Section WorkerProperties.

Lemma main_loadStepFile_queue content result w :
  messageQueue (context (exec (Main.loadStepFile content result) w)) =
  messageQueue (context w)
    ++ Msg DrawLoadingScreen
       :: mkMessage SetStepFileContent (Some content) None
       :: match result with
          | Some _ =>
              [chainMsg ClearScreen
                 [ClearScreen; ClearScreen; InitDemoScene; NextFrame]]
          | None => []
          end.
Proof.
  destruct w as [[q sp doc vc prog params] fx hd gl].
  destruct result; run_steps; rewrite ?chainValue_cons; cbv -[app];
    by rewrite <- ?app_assoc.
Qed.

Lemma c_str_prefix s :
  ∃ tail,
    s = c_str s +:+ tail
    ∧ (tail = EmptyString ∨ ∃ t, tail = String Ascii.zero t).
Proof.
  induction s as [ | c s (tail & Hs & Ht) ].
  - exists EmptyString. split; [ done | by left ].
  - cbn [c_str]. destruct (Ascii.eqb c Ascii.zero) eqn:Hc.
    + apply Ascii.eqb_eq in Hc as ->.
      exists (String Ascii.zero s). split; [ done | right; by exists s ].
    + exists tail. split; [ | done ].
      change (String c (c_str s) +:+ tail)
        with (String c (c_str s +:+ tail)).
      by rewrite <- Hs.
Qed.

(** X16: what the page gets of the content the worker of main.cpp
    read.  Whatever the parse yields, on a queue whose
    [SetStepFileContent] messages carry their payload, the next
    invocation of the scheduler of main.cpp after [loadStepFile] is
    defined and hands the page the content up to its first NUL byte:
    all of it when it holds none, and otherwise nothing from that byte
    on. *)
Theorem main_worker_content_reaches_the_page content result w :
  forallb payloadOk (messageQueue (context w)) = true →
  let w' := exec (Main.loadStepFile content result) w in
  ∃ nf w1 before after tail,
    Main.handleMessages w' = Some (nf, w1)
    ∧ effects w1 =
        effects w' ++ before ++ [SetStepText (c_str content)] ++ after
    ∧ content = c_str content +:+ tail
    ∧ (tail = EmptyString ∨ ∃ t, tail = String Ascii.zero t).
Proof.
  intros Hok. cbn zeta.
  pose proof (main_loadStepFile_queue content result w) as Hq.
  set (w' := exec (Main.loadStepFile content result) w) in *.
  assert (forallb payloadOk (messageQueue (context w')) = true) as Hok'.
  { rewrite Hq, forallb_app, Hok. by destruct result. }
  destruct (c_str_prefix content) as (tail & Hc & Ht).
  pose proof (main_handleMessages_closed w') as Hrun.
  rewrite Hok' in Hrun.
  set (timer := if rearm (showingSpinner (context w')) false
                     (messageQueue (context w'))
                then [SetTimeout 16] else []) in *.
  eexists _, _,
    (flat_map (mainCalls (context w'))
              (messageQueue (context w) ++ [Msg DrawLoadingScreen])),
    (flat_map (mainCalls (context w'))
              match result with
              | Some _ =>
                  [chainMsg ClearScreen
                     [ClearScreen; ClearScreen; InitDemoScene; NextFrame]]
              | None => []
              end ++ timer),
    tail.
  split; [ exact Hrun | ]. split; [ | done ].
  cbn [effects]. rewrite Hq at 1.
  change (?q ++ ?x :: ?y :: ?tl) with (q ++ [x] ++ [y] ++ tl).
  rewrite !flat_map_app. rewrite <- !app_assoc. reflexivity.
Qed.

Lemma main_worker_content_reaches_the_page_witness :
  let content := "A" +:+ String Ascii.zero "B" in
  let w := withContext
             (withQueue [Msg NextFrame;
                         mkMessage SetStepFileContent (Some "old") None]
                        ctx0)
             world0 in
  forallb payloadOk (messageQueue (context w)) = true
  ∧ c_str content = "A"
  ∧ ∃ nf w1 before after tail,
      Main.handleMessages (exec (Main.loadStepFile content (Some 7)) w)
        = Some (nf, w1)
      ∧ effects w1 =
          effects (exec (Main.loadStepFile content (Some 7)) w)
            ++ before ++ [SetStepText (c_str content)] ++ after
      ∧ content = c_str content +:+ tail
      ∧ (tail = EmptyString ∨ ∃ t, tail = String Ascii.zero t).
Proof.
  split; [ reflexivity | ]. split; [ reflexivity | ].
  exact (main_worker_content_reaches_the_page
           ("A" +:+ String Ascii.zero "B") (Some 7)
           (withContext
              (withQueue [Msg NextFrame;
                          mkMessage SetStepFileContent (Some "old") None]
                         ctx0)
              world0) eq_refl).
Defined.

(** X17: the workers stay away from the renderer.  Whatever the parse
    yields, a run of either worker leaves the view controller, the
    shader program, the spinner parameters and the GL side as they
    were, only appends to the queue, and makes no call other than
    logging, the parse and requests for an invocation. *)
Theorem workers_never_touch_render_state content result w :
  let untouched w' :=
    viewController (context w') = viewController (context w)
    ∧ shaderProgram (context w') = shaderProgram (context w)
    ∧ spinnerParams (context w') = spinnerParams (context w)
    ∧ glPrograms w' = glPrograms w
    ∧ handled w' = handled w
    ∧ take (length (messageQueue (context w))) (messageQueue (context w'))
        = messageQueue (context w)
    ∧ effects w' = effects w ++ newEffects w w'
    ∧ forallb workerCall (newEffects w w') = true in
  untouched (exec (StaircaseViewer._loadStepFile content result) w)
  ∧ untouched (exec (Main.loadStepFile content result) w).
Proof.
  destruct w as [[q sp doc vc prog params] fx hd gl].
  destruct result; run_steps; rewrite ?chainValue_cons;
    cbv -[app take drop length forallb];
    rewrite <- ?app_assoc;
    rewrite ?take_app_length, ?drop_app_length; repeat split.
Qed.

End WorkerProperties.
